(** * Link Indexer (PNX): the link aggregation engine of [src/main.ts]

    A shallow embedding of the reference parser, the path filter, the link
    aggregator and the report renderer of the plugin, followed by the
    properties of the specification that can be settled on it.

    Conventions of the embedding.
    - A JavaScript string is a [string]: a sequence of code units.  The
      built-ins that look at single code units ([startsWith], [includes],
      [split], [replace] with the literal patterns of the source) are written
      out; [trim] removes the ECMAScript white space and line terminators
      that fit in one byte, [toLowerCase] maps the upper-case letters of the
      same range.
    - The host application (vault, metadata cache, [normalizePath],
      [getLinkpath]), the [RegExp] engine, [picomatch] and the locale used by
      [localeCompare] are not part of the repository: they are the fields of
      the record [App], and every definition below takes the host as an
      argument.
    - [uniqueLinks] is a plain object literal used as a map.  Its own
      properties are kept in creation order; a read goes through
      [Object.prototype]; [Object.entries] lists array-index keys first.
    - A command leaves behind the file store and the notices it showed;
      what it writes to the console is not modelled. *)

From Stdlib Require Import List String Ascii Bool ZArith NArith Lia Arith.
From Stdlib Require Import Permutation Sorted DecimalString OrderedTypeEx.
From Stdlib Require Import DecimalN DecimalPos.
Import ListNotations.

Local Open Scope string_scope.
Local Open Scope list_scope.

Set Implicit Arguments.

(* ================================================================== *)
(** ** String built-ins *)

Module JsString.

Definition bar : ascii := "|"%char.
Definition bang : ascii := "!"%char.
Definition slash : ascii := "/"%char.
Definition backslash : ascii := "\"%char.

(** [s.startsWith(p)] *)
Fixpoint startsWith (p s : string) : bool :=
  match p, s with
  | EmptyString, _ => true
  | String _ _, EmptyString => false
  | String a p', String b s' => Ascii.eqb a b && startsWith p' s'
  end.

(** [s.substring(n)] *)
Fixpoint drop (n : nat) (s : string) : string :=
  match n, s with
  | O, _ => s
  | S _, EmptyString => EmptyString
  | S n', String _ r => drop n' r
  end.

(** [s.substring(0, n)] *)
Fixpoint take (n : nat) (s : string) : string :=
  match n, s with
  | O, _ => EmptyString
  | S _, EmptyString => EmptyString
  | S n', String c r => String c (take n' r)
  end.

(** [s.endsWith(p)] *)
Definition endsWith (p s : string) : bool :=
  (String.length p <=? String.length s)%nat
  && String.eqb (drop (String.length s - String.length p) s) p.

(** [s.replace(/^p/, '')] for a literal [p] *)
Definition stripPrefix (p s : string) : string :=
  if startsWith p s then drop (String.length p) s else s.

(** [s.replace(/p$/, '')] for a literal [p] *)
Definition stripSuffix (p s : string) : string :=
  if endsWith p s then take (String.length s - String.length p) s else s.

(** [s.includes(c)] for a one-character [c] *)
Fixpoint includes (c : ascii) (s : string) : bool :=
  match s with
  | EmptyString => false
  | String d r => Ascii.eqb d c || includes c r
  end.

(** [s.split(c)] for a one-character separator: never the empty array. *)
Fixpoint split (c : ascii) (s : string) : list string :=
  match s with
  | EmptyString => [EmptyString]
  | String d r =>
      if Ascii.eqb d c then EmptyString :: split c r
      else match split c r with
           | h :: t => String d h :: t
           | [] => [String d EmptyString]
           end
  end.

(** White space and line terminators of ECMAScript below 256:
    TAB, LF, VT, FF, CR, SP and NBSP. *)
Definition isWhite (c : ascii) : bool :=
  let n := nat_of_ascii c in
  ((9 <=? n) && (n <=? 13))%nat || (n =? 32)%nat || (n =? 160)%nat.

Fixpoint trimStart (s : string) : string :=
  match s with
  | EmptyString => EmptyString
  | String c r => if isWhite c then trimStart r else s
  end.

(** Drops the white space at the end: a character is kept when it is not
    white or when something is kept after it. *)
Fixpoint trimEnd (s : string) : string :=
  match s with
  | EmptyString => EmptyString
  | String c r =>
      match trimEnd r with
      | EmptyString => if isWhite c then EmptyString else String c EmptyString
      | r' => String c r'
      end
  end.

(** [s.trim()] *)
Definition trim (s : string) : string := trimEnd (trimStart s).

Definition lowerChar (c : ascii) : ascii :=
  let n := nat_of_ascii c in
  if ((65 <=? n) && (n <=? 90))%nat
     || ((192 <=? n) && (n <=? 222) && negb (n =? 215))%nat
  then ascii_of_nat (n + 32) else c.

(** [s.toLowerCase()] *)
Fixpoint toLowerCase (s : string) : string :=
  match s with
  | EmptyString => EmptyString
  | String c r => String (lowerChar c) (toLowerCase r)
  end.

(** [s.replace(/\\/g, '/')]: the flag [g] rewrites every backslash. *)
Fixpoint replaceBackslashes (s : string) : string :=
  match s with
  | EmptyString => EmptyString
  | String c r =>
      String (if Ascii.eqb c backslash then slash else c) (replaceBackslashes r)
  end.

(** [s.replace(/\/\.\//, '/')]: without the flag [g] only the leftmost
    occurrence of [/./] is rewritten. *)
Fixpoint replaceFirstSlashDotSlash (s : string) : string :=
  match s with
  | EmptyString => EmptyString
  | String c r =>
      if startsWith "/./" s then String slash (drop 2 r)
      else String c (replaceFirstSlashDotSlash r)
  end.

(** [s.lastIndexOf('/')], [None] standing for [-1]. *)
Fixpoint lastIndexOf (c : ascii) (s : string) : option nat :=
  match s with
  | EmptyString => None
  | String d r =>
      match lastIndexOf c r with
      | Some i => Some (S i)
      | None => if Ascii.eqb d c then Some O else None
      end
  end.

(** Text before the first [c], the whole string when there is none:
    [s.split(c)[0]]. *)
Fixpoint before (c : ascii) (s : string) : string :=
  match s with
  | EmptyString => EmptyString
  | String d r => if Ascii.eqb d c then EmptyString else String d (before c r)
  end.

(** Text after the first [c], empty when there is none. *)
Fixpoint after (c : ascii) (s : string) : string :=
  match s with
  | EmptyString => EmptyString
  | String d r => if Ascii.eqb d c then r else after c r
  end.

(** [String(n)] for a count. *)
Definition ofN (n : N) : string := NilZero.string_of_uint (N.to_uint n).

(** [xs.join(sep)] *)
Fixpoint join (sep : string) (xs : list string) : string :=
  match xs with
  | [] => EmptyString
  | [x] => x
  | x :: rest => x ++ sep ++ join sep rest
  end.

End JsString.

Import JsString.

(* ================================================================== *)
(** ** Reference parser *)

(** [cleanWikiLink]: drops a leading [[ and a trailing ]]. *)
Definition cleanWikiLink (link : string) : string :=
  stripSuffix "]]" (stripPrefix "[[" link).

(** The test for the embed marker, shared by both extractors; it runs after
    [cleanWikiLink], as in the source. *)
Definition stripEmbedMarker (cleanLink : string) : string :=
  if startsWith "!" cleanLink then drop 1 cleanLink else cleanLink.

(** [extractDisplayName] *)
Definition extractDisplayName (link : string) : string :=
  let cleanLink := stripEmbedMarker (cleanWikiLink link) in
  if includes bar cleanLink
  then trim (nth 0 (split bar cleanLink) EmptyString)
  else cleanLink.

(** [extractAlias]: [None] is the source's [null]. *)
Definition extractAlias (link : string) : option string :=
  let cleanLink := stripEmbedMarker (cleanWikiLink link) in
  if includes bar cleanLink then
    let parts := split bar cleanLink in
    if (1 <? List.length parts)%nat
    then Some (trim (nth 1 parts EmptyString))
    else None
  else None.

(** Truthiness of a string-or-null value. *)
Definition truthy (a : option string) : bool :=
  match a with
  | Some s => negb (String.eqb s EmptyString)
  | None => false
  end.

(* ================================================================== *)
(** ** Path equality *)

(** [removeDots] *)
Definition removeDots (value : string) : string :=
  replaceFirstSlashDotSlash (stripPrefix "./" (replaceBackslashes value)).

(** [pathEqual], over the host's [normalizePath]. *)
Definition pathEqual (normalizePath : string -> string) (a b : string) : bool :=
  if String.eqb a b then true
  else String.eqb (removeDots (normalizePath a)) (removeDots (normalizePath b)).

(* ================================================================== *)
(** ** Data model *)

(** [TFile], as far as the plugin reads it. *)
Record TFile := mkTFile {
  path : string;   (* full vault path *)
  name : string    (* file name without directories *)
}.

(** [ReferenceCache]: the source guards against a missing [link] and a
    missing [original], so both are optional here. *)
Record ReferenceCache := mkRef {
  link : option string;
  original : option string
}.

(** [CachedMetadata]: [links] and [embeds] may be absent; the arrays may hold
    null entries, which [grabLinks] skips. *)
Record CachedMetadata := mkCache {
  links : option (list (option ReferenceCache));
  embeds : option (list (option ReferenceCache))
}.

(** [class UsedLinks], a preset. *)
Record UsedLinks := mkPreset {
  presetName : string;
  presetPath : string;
  strictLineBreaks : bool;
  includeEmbeds : bool;
  linkToFiles : bool;
  nonexistentOnly : bool;
  sortAlphabetically : bool;
  excludeToFilenames : list string;
  excludeToGlobs : list string;
  excludeFromFilenames : list string;
  excludeFromGlobs : list string
}.

(** [interface IndexNode] *)
Record IndexNode := mkNode {
  count : N;
  nodeLink : string;
  originalLinks : list string;
  displayName : string
}.

(** The outcome of a call that may throw; [Throw] carries [error.message]. *)
Inductive Completion (A : Type) : Type :=
| Normal (a : A)
| Throw (message : string).

Arguments Normal {A} a.
Arguments Throw {A} message.

Definition bind {A B} (c : Completion A) (k : A -> Completion B) : Completion B :=
  match c with
  | Normal a => k a
  | Throw m => Throw m
  end.

Notation "x <- c ;; k" := (bind c (fun x => k))
  (at level 61, c at next level, right associativity).

(** The file store behind [app.vault]: the notes with their text, and the
    folders. *)
Record FileStore := mkStore {
  storeFiles : list (string * string);
  storeFolders : list string
}.

(** The host.  None of these is code of the repository.  The calls into
    the vault and the metadata cache are taken to return; [RegExp],
    [picomatch] and the file operations may throw. *)
Record App := mkApp {
  normalizePath : string -> string;
  getLinkpath : string -> string;
  getMarkdownFiles : list TFile;
  getFileCache : TFile -> option CachedMetadata;
  (* [metadataCache.getFirstLinkpathDest(linkpath, sourcePath)] *)
  getFirstLinkpathDest : string -> string -> option TFile;
  (* [metadataCache.fileToLinktext(file, sourcePath, true)] *)
  fileToLinktext : TFile -> string -> string;
  (* [new RegExp(p).test(s)]: the constructor throws on a malformed [p] *)
  regExpTest : string -> string -> Completion bool;
  (* [picomatch.isMatch(s, globs)] *)
  picomatchIsMatch : string -> list string -> Completion bool;
  (* [a.localeCompare(b)] in the locale of the host *)
  localeCompare : string -> string -> Z;
  adapterExists : FileStore -> string -> Completion bool;
  adapterWrite : FileStore -> string -> string -> Completion FileStore;
  vaultCreate : FileStore -> string -> string -> Completion FileStore;
  vaultCreateFolder : FileStore -> string -> Completion FileStore
}.

(* ================================================================== *)
(** ** The object literal used as a map *)

Module JsObject.

(** Own properties in creation order. *)
Definition t := list (string * IndexNode).

Definition empty : t := [].

(** The properties every object literal inherits from [Object.prototype];
    each of them is a function or an object, hence truthy. *)
Definition inheritedKeys : list string :=
  [ "constructor"; "__proto__"; "hasOwnProperty"; "isPrototypeOf";
    "propertyIsEnumerable"; "toString"; "toLocaleString"; "valueOf";
    "__defineGetter__"; "__defineSetter__"; "__lookupGetter__";
    "__lookupSetter__" ].

Definition isInherited (k : string) : bool :=
  existsb (String.eqb k) inheritedKeys.

Fixpoint getOwn (o : t) (k : string) : option IndexNode :=
  match o with
  | [] => None
  | (k', n) :: rest => if String.eqb k' k then Some n else getOwn rest k
  end.

(** What [o[k]] evaluates to. *)
Inductive Lookup : Type :=
| Own (n : IndexNode)
| Inherited
| Undefined.

Definition get (o : t) (k : string) : Lookup :=
  match getOwn o k with
  | Some n => Own n
  | None => if isInherited k then Inherited else Undefined
  end.

(** [o[k] = n] for a key that is an own property: the slot keeps its place. *)
Fixpoint update (o : t) (k : string) (n : IndexNode) : t :=
  match o with
  | [] => []
  | (k', n') :: rest =>
      if String.eqb k' k then (k', n) :: rest else (k', n') :: update rest k n
  end.

(** [o[k] = n] for a key that is not an own property: a new slot, last. *)
Definition define (o : t) (k : string) (n : IndexNode) : t := o ++ [(k, n)].

Definition isDigit (c : ascii) : bool :=
  let n := nat_of_ascii c in ((48 <=? n) && (n <=? 57))%nat.

Fixpoint allDigits (s : string) : bool :=
  match s with
  | EmptyString => true
  | String c r => isDigit c && allDigits r
  end.

Fixpoint digitsValue (acc : N) (s : string) : N :=
  match s with
  | EmptyString => acc
  | String c r => digitsValue (acc * 10 + N.of_nat (nat_of_ascii c - 48)) r
  end.

(** An array index is a canonical numeric string below [2^32 - 1]. *)
Definition arrayIndex (k : string) : option N :=
  match k with
  | EmptyString => None
  | String c r =>
      if allDigits k
         && (negb (Ascii.eqb c "0"%char) || String.eqb r EmptyString)
         && (digitsValue 0 k <? 4294967295)%N
      then Some (digitsValue 0 k) else None
  end.

Definition isArrayIndex (k : string) : bool :=
  match arrayIndex k with Some _ => true | None => false end.

Definition indexOf (k : string) : N :=
  match arrayIndex k with Some i => i | None => 0%N end.

Fixpoint insertByIndex (e : string * IndexNode) (l : list (string * IndexNode))
  : list (string * IndexNode) :=
  match l with
  | [] => [e]
  | e' :: rest =>
      if (indexOf (fst e) <=? indexOf (fst e'))%N then e :: l
      else e' :: insertByIndex e rest
  end.

(** [Object.entries(o)]: array-index keys in ascending numeric order, then
    the other keys in creation order. *)
Definition entries (o : t) : list (string * IndexNode) :=
  fold_right insertByIndex [] (filter (fun e => isArrayIndex (fst e)) o)
  ++ filter (fun e => negb (isArrayIndex (fst e))) o.

(** [Object.keys(o)] *)
Definition keys (o : t) : list string := map fst (entries o).

End JsObject.

(* ================================================================== *)
(** ** Path filter *)

Section Plugin.

Variable app : App.

(** The output path as the plugin compares it: [.md] appended when missing,
    then [normalizePath]. *)
Definition withMd (p : string) : string :=
  if endsWith ".md" p then p else p ++ ".md".

Definition outputPathOf (r : UsedLinks) : string :=
  normalizePath app (withMd (presetPath r)).

(** [setupCommands], the part that fills [this.globalExcludes]. *)
Definition setupCommands (usedLinks : list UsedLinks) : list string :=
  map outputPathOf usedLinks.

(** [patterns.some((p) => new RegExp(p).test(s))]: left to right, stops at
    the first match, throws at the first malformed pattern met before one. *)
Fixpoint someRegExp (patterns : list string) (s : string) : Completion bool :=
  match patterns with
  | [] => Normal false
  | p :: rest =>
      hit <- regExpTest app p s ;;
      if hit then Normal true else someRegExp rest s
  end.

(** [isExcluded]: the three tests are all evaluated, then combined. *)
Definition isExcluded (globalExcludes : list string) (f : TFile)
  (filenamePatterns globPatterns : list string) : Completion bool :=
  let isGloballyExcluded :=
    existsb (fun g => pathEqual (normalizePath app) g (path f)) globalExcludes in
  isFilenameExcluded <- someRegExp filenamePatterns (name f) ;;
  isGlobExcluded <- picomatchIsMatch app (path f) globPatterns ;;
  Normal (isGloballyExcluded || isFilenameExcluded || isGlobExcluded).

(* ================================================================== *)
(** ** Link aggregator *)

Section Run.

Variable globalExcludes : list string.
Variable preset : UsedLinks.

(** [a || b] on strings that may be undefined. *)
Definition orElse (a : option string) (b : string) : string :=
  match a with
  | Some s => if String.eqb s EmptyString then b else s
  | None => b
  end.

Definition typeErrorPush : string :=
  "Cannot read properties of undefined (reading 'push')".

(** The callback of [links.forEach] in [grabLinks], for one array element.
    A throw leaves [uniqueLinks] as it was: the filter throws before any
    write, and the write through an inherited property lands on the
    prototype object, not on [uniqueLinks]. *)
Definition grabLink (f : TFile) (uniqueLinks : JsObject.t)
  (l : option ReferenceCache) : Completion JsObject.t :=
  match l with
  | None => Normal uniqueLinks
  | Some l =>
      if negb (truthy (link l)) then Normal uniqueLinks
      else
        let link := getLinkpath app (orElse (link l) EmptyString) in
        let originFile := getFirstLinkpathDest app link (path f) in
        skip <- match originFile with
                | Some t =>
                    if nonexistentOnly preset then Normal true
                    else isExcluded globalExcludes t
                           (excludeToFilenames preset) (excludeToGlobs preset)
                | None => Normal false
                end ;;
        if (skip : bool) then Normal uniqueLinks
        else
          let origin :=
            match originFile with Some t => path t | None => link end in
          let normalizedOrigin := toLowerCase origin in
          let originalLinkText := orElse (original l) link in
          let display := extractDisplayName originalLinkText in
          match JsObject.get uniqueLinks normalizedOrigin with
          | JsObject.Own n =>
              Normal (JsObject.update uniqueLinks normalizedOrigin
                        (mkNode (count n + 1) (nodeLink n)
                                (originalLinks n ++ [originalLinkText])
                                (displayName n)))
          | JsObject.Inherited => Throw typeErrorPush
          | JsObject.Undefined =>
              let rawLink :=
                match originFile with
                | Some t => fileToLinktext app t (presetPath preset)
                | None => link
                end in
              Normal (JsObject.define uniqueLinks normalizedOrigin
                        (mkNode 1
                                (if linkToFiles preset
                                 then "[[" ++ rawLink ++ "]]" else rawLink)
                                [originalLinkText]
                                display))
          end
  end.

(** [grabLinks]: [forEach] over the array; a throw in the callback ends the
    loop and leaves the entries written so far. *)
Fixpoint grabLinks (uniqueLinks : JsObject.t) (f : TFile)
  (ls : list (option ReferenceCache)) : JsObject.t * Completion unit :=
  match ls with
  | [] => (uniqueLinks, Normal tt)
  | l :: rest =>
      match grabLink f uniqueLinks l with
      | Normal u => grabLinks u f rest
      | Throw m => (uniqueLinks, Throw m)
      end
  end.

(** The body of the loop over the notes, with its [try]/[catch]: whatever is
    thrown is logged and the loop goes on with the next note.  The three
    counters of the source only feed log lines and are left out. *)
Definition processFile (outputPath : string) (uniqueLinks : JsObject.t)
  (f : TFile) : JsObject.t :=
  if String.eqb (path f) outputPath then uniqueLinks
  else
    match isExcluded globalExcludes f
            (excludeFromFilenames preset) (excludeFromGlobs preset) with
    | Throw _ => uniqueLinks
    | Normal true => uniqueLinks
    | Normal false =>
        match getFileCache app f with
        | None => uniqueLinks
        | Some fileCache =>
            let (u1, c1) :=
              match links fileCache with
              | Some ls => grabLinks uniqueLinks f ls
              | None => (uniqueLinks, Normal tt)
              end in
            match c1 with
            | Throw _ => u1
            | Normal _ =>
                if includeEmbeds preset then
                  match embeds fileCache with
                  | Some es => fst (grabLinks u1 f es)
                  | None => u1
                  end
                else u1
            end
        end
    end.

(** The aggregation pass of [generateAllUsedLinksIndex]. *)
Definition collectLinks : JsObject.t :=
  fold_left (processFile (outputPathOf preset)) (getMarkdownFiles app)
            JsObject.empty.

(* ================================================================== *)
(** ** Report renderer *)

(** [Array.prototype.sort(cmp)] is stable; for a consistent comparator every
    stable sort yields the same array, here by insertion from the right. *)
Fixpoint insertBy {A} (cmp : A -> A -> Z) (x : A) (l : list A) : list A :=
  match l with
  | [] => [x]
  | y :: rest =>
      if (cmp x y <=? 0)%Z then x :: l else y :: insertBy cmp x rest
  end.

Definition sortBy {A} (cmp : A -> A -> Z) (l : list A) : list A :=
  fold_right (insertBy cmp) [] l.

Definition Entry : Type := string * IndexNode.

Definition byName (a b : Entry) : Z :=
  localeCompare app (toLowerCase (displayName (snd a)))
                    (toLowerCase (displayName (snd b))).

Definition byCount (a b : Entry) : Z :=
  (Z.of_N (count (snd b)) - Z.of_N (count (snd a)))%Z.

Definition sortedLinks (uniqueLinks : JsObject.t) : list Entry :=
  if sortAlphabetically preset
  then sortBy byName (JsObject.entries uniqueLinks)
  else sortBy byCount (JsObject.entries uniqueLinks).

(** [Set.prototype.add], the set kept in insertion order. *)
Definition setAdd (s : list string) (x : string) : list string :=
  if existsb (String.eqb x) s then s else s ++ [x].

(** The callback of [node.originalLinks.forEach] in the row loop. *)
Definition addTerm (mainLink : string) (connectedTerms : list string)
  (linkText : string) : list string :=
  let alias := extractAlias linkText in
  if truthy alias && negb (String.eqb (orElse alias EmptyString) mainLink)
  then setAdd connectedTerms (orElse alias EmptyString)
  else connectedTerms.

(** The set [connectedTerms] of one row, then [Array.from]. *)
Definition connectedTerms (node : IndexNode) : list string :=
  fold_left (addTerm (displayName node)) (originalLinks node) [].

Definition newline : string := String (ascii_of_nat 10) EmptyString.

Definition tableHeader : string :=
  "| Count | Link | Connected Terms |" ++ newline
  ++ "|-------|------|----------------|" ++ newline.

Definition renderRow (e : Entry) : string :=
  let node := snd e in
  "| " ++ ofN (count node) ++ " | " ++ nodeLink node ++ " | "
  ++ join ", " (connectedTerms node) ++ " |" ++ newline.

Definition renderRows (uniqueLinks : JsObject.t) : list string :=
  map renderRow (sortedLinks uniqueLinks).

Definition renderContent (uniqueLinks : JsObject.t) : string :=
  tableHeader ++ String.concat EmptyString (renderRows uniqueLinks).

End Run.

(* ================================================================== *)
(** ** Report generation *)

(** What a command leaves behind: the file store and the notices shown. *)
Record World := mkWorld {
  store : FileStore;
  notices : list string
}.

Definition notify (w : World) (msg : string) : World :=
  mkWorld (store w) (notices w ++ [msg]).

Definition presetNotFound : string :=
  "Preset not found. Try reloading Obsidian.".

Definition uniqueCount (uniqueLinks : JsObject.t) : string :=
  ofN (N.of_nat (List.length (JsObject.keys uniqueLinks))).

(** The last [adapter.exists], whose answer is only logged. *)
Definition finalCheck (w : World) (outputPath : string)
  : World * Completion unit :=
  match adapterExists app (store w) outputPath with
  | Throw m => (w, Throw m)
  | Normal _ => (w, Normal tt)
  end.

(** The branch that creates the note once its folder is there. *)
Definition createReport (w : World) (outputPath content : string)
  (uniqueLinks : JsObject.t) : World * Completion unit :=
  match vaultCreate app (store w) outputPath content with
  | Throw m => (w, Throw m)
  | Normal st =>
      finalCheck
        (notify (mkWorld st (notices w))
           ("Link Indexer (PNX): Created new index at " ++ outputPath
            ++ " with " ++ uniqueCount uniqueLinks ++ " unique links"))
        outputPath
  end.

(** The body of the inner [try]. *)
Definition writeReport (w : World) (outputPath content : string)
  (uniqueLinks : JsObject.t) : World * Completion unit :=
  match adapterExists app (store w) outputPath with
  | Throw m => (w, Throw m)
  | Normal true =>
      match adapterWrite app (store w) outputPath content with
      | Throw m => (w, Throw m)
      | Normal st =>
          finalCheck
            (notify (mkWorld st (notices w))
               ("Link Indexer (PNX): Updated index at " ++ outputPath
                ++ " with " ++ uniqueCount uniqueLinks ++ " unique links"))
            outputPath
      end
  | Normal false =>
      let dirPath :=
        take (match lastIndexOf slash outputPath with
              | Some i => i
              | None => 0
              end) outputPath in
      if negb (String.eqb dirPath EmptyString)
         && negb (String.eqb dirPath outputPath)
      then
        match adapterExists app (store w) dirPath with
        | Throw m => (w, Throw m)
        | Normal true => createReport w outputPath content uniqueLinks
        | Normal false =>
            match vaultCreateFolder app (store w) dirPath with
            | Throw m =>
                (notify w ("Error: Could not create directory " ++ dirPath),
                 Throw m)
            | Normal st =>
                createReport (mkWorld st (notices w)) outputPath content
                  uniqueLinks
            end
        end
      else createReport w outputPath content uniqueLinks
  end.

(** [generateAllUsedLinksIndex]; the argument is what [getPresetByName]
    returned, [None] for [undefined]. *)
Definition generateAllUsedLinksIndex (globalExcludes : list string)
  (preset : option UsedLinks) (w : World) : World :=
  match preset with
  | None => notify w presetNotFound
  | Some preset =>
      let uniqueLinks := collectLinks globalExcludes preset in
      let content := renderContent preset uniqueLinks in
      let outputPath := withMd (outputPathOf preset) in
      match writeReport w outputPath content uniqueLinks with
      | (w1, Normal _) => w1
      | (w1, Throw m) =>
          notify (notify w1 ("Error writing to file: " ++ m))
                 ("Error generating index: " ++ m)
      end
  end.

End Plugin.

(** [getPresetByName]: [presets.find((r) => r.name === name)]. *)
Definition getPresetByName (presets : list UsedLinks) (name : string)
  : option UsedLinks :=
  find (fun r => String.eqb (presetName r) name) presets.

(** The callback registered for a preset by [setupCommands]. *)
Definition runCommand (app : App) (usedLinks : list UsedLinks)
  (globalExcludes : list string) (name : string) (w : World) : World :=
  generateAllUsedLinksIndex app globalExcludes
    (getPresetByName usedLinks name) w.

(* ================================================================== *)
(** ** A concrete host

    A small vault on which the definitions can be run.  [normalizePath]
    follows the documented behaviour of the host function: runs of slashes
    and backslashes become one slash, slashes at both ends are dropped, the
    empty path becomes the root, non-breaking spaces become spaces. *)

Module Demo.

Definition isSep (c : ascii) : bool :=
  Ascii.eqb c slash || Ascii.eqb c backslash.

Fixpoint collapseSeps (afterSep : bool) (s : string) : string :=
  match s with
  | EmptyString => EmptyString
  | String c r =>
      if isSep c
      then if afterSep then collapseSeps true r
           else String slash (collapseSeps true r)
      else String c (collapseSeps false r)
  end.

Fixpoint unbreakSpaces (s : string) : string :=
  match s with
  | EmptyString => EmptyString
  | String c r =>
      String (if (nat_of_ascii c =? 160)%nat then " "%char else c)
             (unbreakSpaces r)
  end.

Definition normalizePath (p : string) : string :=
  let q := stripSuffix "/" (stripPrefix "/" (collapseSeps false p)) in
  unbreakSpaces (if String.eqb q EmptyString then "/" else q).

(** The link path is the link text up to its first [#]. *)
Definition getLinkpath (linktext : string) : string :=
  before "#"%char linktext.

Definition basename (f : TFile) : string := stripSuffix ".md" (name f).

Definition note (name : string) : TFile := mkTFile name name.

(** A wiki link as the metadata cache reports it. *)
Definition wiki (target : string) : option ReferenceCache :=
  Some (mkRef (Some target) (Some ("[[" ++ target ++ "]]")%string)).

Definition aliased (target alias : string) : option ReferenceCache :=
  Some (mkRef (Some target) (Some ("[[" ++ target ++ "|" ++ alias ++ "]]")%string)).

Definition Vault : Type := list (TFile * list (option ReferenceCache)).

Definition lookupNote (v : Vault) (f : TFile)
  : option (list (option ReferenceCache)) :=
  option_map snd (find (fun e => String.eqb (path (fst e)) (path f)) v).

Definition resolve (v : Vault) (linkpath sourcePath : string) : option TFile :=
  find (fun f => String.eqb (path f) linkpath
                 || String.eqb (path f) (linkpath ++ ".md")%string)
       (map fst v).

Definition compareStrings (a b : string) : Z :=
  match String.compare a b with
  | Lt => (-1)%Z
  | Eq => 0%Z
  | Gt => 1%Z
  end.

Definition hasFile (st : FileStore) (p : string) : bool :=
  existsb (fun e => String.eqb (fst e) p) (storeFiles st)
  || existsb (String.eqb p) (storeFolders st).

Definition putFile (st : FileStore) (p content : string) : FileStore :=
  mkStore ((p, content)
           :: filter (fun e => negb (String.eqb (fst e) p)) (storeFiles st))
          (storeFolders st).

(** The host over a vault: no pattern is malformed, no write fails. *)
Definition host (v : Vault) : App :=
  mkApp normalizePath getLinkpath (map fst v)
        (fun f => option_map (fun ls => mkCache (Some ls) None) (lookupNote v f))
        (resolve v)
        (fun t _ => basename t)
        (fun _ _ => Normal false)
        (fun _ _ => Normal false)
        compareStrings
        (fun st p => Normal (hasFile st p))
        (fun st p c => Normal (putFile st p c))
        (fun st p c => Normal (putFile st p c))
        (fun st p => Normal (mkStore (storeFiles st) (p :: storeFolders st))).

(** A preset with the defaults of [class UsedLinks]. *)
Definition defaults (name path : string) : UsedLinks :=
  mkPreset name path true true true false false [] [] [] [].

Definition nonexistentOnlyPreset (name path : string) : UsedLinks :=
  mkPreset name path true true true true false [] [] [] [].

(** The vault of the specification's scenario: X does not exist. *)
Definition scenario : Vault :=
  [ (note "A.md", [wiki "B"; wiki "C"]);
    (note "B.md", [wiki "C"]);
    (note "C.md", [wiki "B"; wiki "X"]) ].

Definition summary (o : JsObject.t) : list (string * N * string) :=
  map (fun e => (fst e, count (snd e), nodeLink (snd e))) o.

End Demo.

(* ================================================================== *)
(** ** The aggregation as the specification describes it

    Steps 3a to 3f of the specification, written without the object: the
    filter that admits an occurrence, the stream of admitted occurrences of
    a run, and the entry that a list of occurrences amounts to. *)

(** What one original text contributes to the terms of a row. *)
Definition contributes (mainLink linkText t : string) : Prop :=
  extractAlias linkText = Some t /\ t <> EmptyString /\ t <> mainLink.

(** An occurrence that passed the filter. *)
Record Occurrence := mkOccurrence {
  source : TFile;
  reference : ReferenceCache;
  target : option TFile
}.

Section Admission.

Variable app : App.
Variable globalExcludes : list string.
Variable preset : UsedLinks.

Definition linkpathOf (r : ReferenceCache) : string :=
  getLinkpath app (orElse (link r) EmptyString).

(** Step 3d: the resolved path when there is one, else the raw link path,
    lower-cased. *)
Definition identityKey (a : Occurrence) : string :=
  toLowerCase (match target a with
               | Some t => path t
               | None => linkpathOf (reference a)
               end).

Definition originalText (a : Occurrence) : string :=
  orElse (original (reference a)) (linkpathOf (reference a)).

(** Step 3f: the Link column of a new entry. *)
Definition canonicalDisplay (a : Occurrence) : string :=
  let rawLink := match target a with
                 | Some t => fileToLinktext app t (presetPath preset)
                 | None => linkpathOf (reference a)
                 end in
  if linkToFiles preset then "[[" ++ rawLink ++ "]]" else rawLink.

(** Steps 3a to 3c for one element of a reference array: [Normal None] when
    the element is skipped or discarded. *)
Definition filterReference (f : TFile) (l : option ReferenceCache)
  : Completion (option Occurrence) :=
  match l with
  | None => Normal None
  | Some r =>
      if negb (truthy (link r)) then Normal None
      else
        match getFirstLinkpathDest app (linkpathOf r) (path f) with
        | Some t =>
            if nonexistentOnly preset then Normal None
            else
              excluded <- isExcluded app globalExcludes t
                            (excludeToFilenames preset) (excludeToGlobs preset) ;;
              Normal (if (excluded : bool) then None
                      else Some (mkOccurrence f r (Some t)))
        | None => Normal (Some (mkOccurrence f r None))
        end
  end.

(** The admitted occurrences of one reference array, up to the first error
    of the filter. *)
Fixpoint passedOf (f : TFile) (ls : list (option ReferenceCache))
  : list Occurrence * Completion unit :=
  match ls with
  | [] => ([], Normal tt)
  | l :: rest =>
      match filterReference f l with
      | Throw m => ([], Throw m)
      | Normal None => passedOf f rest
      | Normal (Some a) =>
          let (xs, c) := passedOf f rest in (a :: xs, c)
      end
  end.

(** Steps 1 and 2 for one note. *)
Definition fileStream (f : TFile) : list Occurrence :=
  if String.eqb (path f) (outputPathOf app preset) then []
  else
    match isExcluded app globalExcludes f
            (excludeFromFilenames preset) (excludeFromGlobs preset) with
    | Normal false =>
        match getFileCache app f with
        | None => []
        | Some fileCache =>
            let (xs, c) :=
              match links fileCache with
              | Some ls => passedOf f ls
              | None => ([], Normal tt)
              end in
            match c with
            | Throw _ => xs
            | Normal _ =>
                xs ++ (if includeEmbeds preset then
                         match embeds fileCache with
                         | Some es => fst (passedOf f es)
                         | None => []
                         end
                       else [])
            end
        end
    | _ => []
    end.

(** The admitted occurrences of a run, in the order they are met. *)
Definition occurrenceStream : list Occurrence :=
  flat_map fileStream (getMarkdownFiles app).

Definition hasKey (k : string) (a : Occurrence) : bool :=
  String.eqb (identityKey a) k.

(** The entry that the occurrences of one identity amount to: none without
    an occurrence; else the count is their number, the texts are theirs in
    order, and the first one names and links the entry. *)
Definition entryOf (occurrences : list Occurrence) : option IndexNode :=
  match occurrences with
  | [] => None
  | first :: _ =>
      Some (mkNode (N.of_nat (List.length occurrences))
                   (canonicalDisplay first)
                   (map originalText occurrences)
                   (extractDisplayName (originalText first)))
  end.

(** Steps 3e and 3f on a map without inherited properties. *)
Definition upsert (u : JsObject.t) (a : Occurrence) : JsObject.t :=
  match JsObject.getOwn u (identityKey a) with
  | Some n =>
      JsObject.update u (identityKey a)
        (mkNode (count n + 1) (nodeLink n)
                (originalLinks n ++ [originalText a]) (displayName n))
  | None =>
      JsObject.define u (identityKey a)
        (mkNode 1 (canonicalDisplay a) [originalText a]
                (extractDisplayName (originalText a)))
  end.

(** A map and a list of occurrences that tell the same story. *)
Definition Represents (u : JsObject.t) (xs : list Occurrence) : Prop :=
  map fst u = fold_left setAdd (map identityKey xs) []
  /\ forall k, JsObject.getOwn u k = entryOf (filter (hasKey k) xs).

Definition noInheritedKey (xs : list Occurrence) : Prop :=
  forall a, In a xs -> JsObject.isInherited (identityKey a) = false.

End Admission.

(** A comparator is consistent when the relation it induces, not after, is
    total and transitive. *)
Definition Consistent {A} (cmp : A -> A -> Z) : Prop :=
  (forall a b, (cmp a b <= 0)%Z \/ (cmp b a <= 0)%Z)
  /\ (forall a b c, (cmp a b <= 0)%Z -> (cmp b c <= 0)%Z -> (cmp a c <= 0)%Z).

(** Two entries tie under a comparator. *)
Definition tie {A} (cmp : A -> A -> Z) (x y : A) : bool :=
  ((cmp x y <=? 0)%Z && (cmp y x <=? 0)%Z)%bool.

(* ================================================================== *)
(** ** Settings

    The parts of the settings tab and of [class UsedLinks] that decide what
    the aggregation is run with. *)

Module Settings.

Definition newlineChar : ascii := ascii_of_nat 10.

(** The handler of a pattern text area:
    [value.split('\n').filter((v) => v)]. *)
Definition parsePatterns (value : string) : list string :=
  filter (fun v => negb (String.eqb v EmptyString)) (split newlineChar value).

(** What the text area is filled with: [patterns.join('\n')]. *)
Definition showPatterns (patterns : list string) : string :=
  join (String newlineChar EmptyString) patterns.

(** The constructor of [class UsedLinks]; [now] is [Date.now()]. *)
Definition newUsedLinks (now : N) : UsedLinks :=
  mkPreset (ofN now) ("used_links" ++ ofN now)
           true true true false false [] [] [] [].

(** The button that adds a preset: [usedLinks.push(new UsedLinks())]. *)
Definition addPreset (usedLinks : list UsedLinks) (now : N) : list UsedLinks :=
  usedLinks ++ [newUsedLinks now].

(** The button that deletes a preset: [findIndex] by name, then
    [splice(index, 1)] when one was found. *)
Fixpoint deletePreset (usedLinks : list UsedLinks) (name : string)
  : list UsedLinks :=
  match usedLinks with
  | [] => []
  | r :: rest =>
      if String.eqb (presetName r) name then rest
      else r :: deletePreset rest name
  end.

End Settings.

(* ================================================================== *)
(** ** The row loop of the first revision

    The first revision of [generateAllUsedLinksIndex] kept in the file
    lists the stored texts themselves as connected terms:
    [originalLinks.filter((term, index, self) => self.indexOf(term) === index)]. *)

Module FirstRevision.

(** [self.indexOf(term)], [None] for [-1]. *)
Fixpoint indexOf (term : string) (self : list string) : option nat :=
  match self with
  | [] => None
  | x :: rest =>
      if String.eqb x term then Some O
      else option_map S (indexOf term rest)
  end.

Definition sameIndex (found : option nat) (index : nat) : bool :=
  match found with
  | Some i => (i =? index)%nat
  | None => false
  end.

(** [filter] with the index of the element, from position [index] on. *)
Fixpoint keepFirst (self : list string) (index : nat) (l : list string)
  : list string :=
  match l with
  | [] => []
  | term :: rest =>
      if sameIndex (indexOf term self) index
      then term :: keepFirst self (S index) rest
      else keepFirst self (S index) rest
  end.

Definition connectedTerms (node : IndexNode) : list string :=
  keepFirst (originalLinks node) 0 (originalLinks node).

End FirstRevision.

(* ================================================================== *)
(** ** Hosts for the statements below *)


(** The concrete host with a [RegExp] that rejects the pattern [[]: an
    unterminated character class. *)
Definition strictHost (v : Demo.Vault) : App :=
  let h := Demo.host v in
  mkApp (normalizePath h) (getLinkpath h) (getMarkdownFiles h)
        (getFileCache h) (getFirstLinkpathDest h) (fileToLinktext h)
        (fun p _ => if String.eqb p "["
                    then Throw "Invalid regular expression: /[/: Unterminated character class"
                    else Normal false)
        (picomatchIsMatch h) (localeCompare h) (adapterExists h)
        (adapterWrite h) (vaultCreate h) (vaultCreateFolder h).

(** The concrete host whose file store refuses every write. *)
Definition readOnlyHost (v : Demo.Vault) : App :=
  let h := Demo.host v in
  mkApp (normalizePath h) (getLinkpath h) (getMarkdownFiles h)
        (getFileCache h) (getFirstLinkpathDest h) (fileToLinktext h)
        (regExpTest h) (picomatchIsMatch h) (localeCompare h)
        (adapterExists h)
        (fun _ _ _ => Throw "EACCES: permission denied")
        (fun _ _ _ => Throw "EACCES: permission denied")
        (fun _ _ => Throw "EACCES: permission denied").

(** A map none of whose own keys is the name of an inherited property. *)
Definition ownKeysOnly (u : JsObject.t) : Prop :=
  forall k, In k (map fst u) -> JsObject.isInherited k = false.

(** The sum of the Count column. *)
Definition totalCount (u : JsObject.t) : N :=
  fold_right (fun e acc => (count (snd e) + acc)%N) 0%N u.

(** Occurrences of [/./] anywhere in a path. *)
Fixpoint hasDotSegment (s : string) : bool :=
  match s with
  | EmptyString => false
  | String _ r => startsWith "/./" s || hasDotSegment r
  end.

(* ================================================================== *)
(** * Properties *)

(** ** Evaluation on small inputs *)

Example parse_aliased :
  extractDisplayName "[[Target|alias]]" = "Target"
  /\ extractAlias "[[Target|alias]]" = Some "alias".
Proof. split; reflexivity. Qed.

Example parse_two_bars : extractAlias "[[A|b|c]]" = Some "b".
Proof. reflexivity. Qed.

Example removeDots_once : removeDots "a/./b/./c" = "a/b/./c".
Proof. reflexivity. Qed.

Example scenario_by_frequency :
  let r := Demo.defaults "all" "used_links" in
  Demo.summary
    (sortedLinks (Demo.host Demo.scenario) r
       (collectLinks (Demo.host Demo.scenario)
          (setupCommands (Demo.host Demo.scenario) [r]) r))
  = [ ("b.md", 2%N, "[[B]]"); ("c.md", 2%N, "[[C]]"); ("x", 1%N, "[[X]]") ].
Proof. vm_compute. reflexivity. Qed.


(** ** Splitting at the separator *)

Lemma split_not_nil (c : ascii) (s : string) : split c s <> [].
Proof.
  destruct s as [|d r]; simpl; [discriminate|].
  destruct (Ascii.eqb d c); [discriminate|].
  destruct (split c r); discriminate.
Qed.

Lemma split_head (c : ascii) (s : string) :
  nth 0 (split c s) EmptyString = before c s.
Proof.
  induction s as [|d r IH]; simpl; [reflexivity|].
  destruct (Ascii.eqb d c); [reflexivity|].
  destruct (split c r) as [|h t] eqn:E.
  - exfalso. exact (split_not_nil c r E).
  - simpl in *. now rewrite IH.
Qed.

Lemma split_second (c : ascii) (s : string) :
  includes c s = true ->
  (1 < List.length (split c s))%nat
  /\ nth 1 (split c s) EmptyString = before c (after c s).
Proof.
  induction s as [|d r IH]; simpl; [discriminate|].
  destruct (Ascii.eqb d c) eqn:Edc; simpl.
  - intros _. split.
    + destruct (split c r) eqn:E; [exfalso; exact (split_not_nil c r E)|].
      simpl. lia.
    + apply split_head.
  - intros Hin. destruct (IH Hin) as [Hlen Hnth].
    destruct (split c r) as [|h t] eqn:E; [exfalso; exact (split_not_nil c r E)|].
    simpl in *. split; [lia|exact Hnth].
Qed.

Lemma extractDisplayName_bar (link : string) :
  includes bar (stripEmbedMarker (cleanWikiLink link)) = true ->
  extractDisplayName link
  = trim (before bar (stripEmbedMarker (cleanWikiLink link))).
Proof.
  intros H. unfold extractDisplayName. rewrite H. now rewrite split_head.
Qed.

Lemma extractAlias_bar (link : string) :
  includes bar (stripEmbedMarker (cleanWikiLink link)) = true ->
  extractAlias link
  = Some (trim (before bar (after bar (stripEmbedMarker (cleanWikiLink link))))).
Proof.
  intros H. unfold extractAlias. rewrite H.
  destruct (split_second bar _ H) as [Hlen Hnth].
  apply Nat.ltb_lt in Hlen. rewrite Hlen. now rewrite Hnth.
Qed.

Lemma extractAlias_no_bar (link : string) :
  includes bar (stripEmbedMarker (cleanWikiLink link)) = false ->
  extractAlias link = None.
Proof. intros H. unfold extractAlias. now rewrite H. Qed.

(** ** Connected terms *)

Lemma setAdd_In (s : list string) (x t : string) :
  In t (setAdd s x) <-> In t s \/ t = x.
Proof.
  unfold setAdd. destruct (existsb (String.eqb x) s) eqn:E.
  - split; [auto|]. intros [H|H]; [exact H|]. subst t.
    apply existsb_exists in E. destruct E as [y [Hy Hxy]].
    apply String.eqb_eq in Hxy. now subst y.
  - rewrite in_app_iff. simpl. intuition.
Qed.

Lemma setAdd_NoDup (s : list string) (x : string) :
  NoDup s -> NoDup (setAdd s x).
Proof.
  intros H. unfold setAdd. destruct (existsb (String.eqb x) s) eqn:E; [exact H|].
  apply NoDup_app; [exact H|repeat constructor; simpl; tauto|].
  intros y Hy [Hx|[]]. subst y.
  assert (true = false); [|discriminate].
  rewrite <- E. symmetry. apply existsb_exists. exists x. split; [exact Hy|].
  apply String.eqb_refl.
Qed.

Lemma addTerm_spec (mainLink : string) (acc : list string) (l : string) :
  NoDup acc ->
  NoDup (addTerm mainLink acc l)
  /\ forall t, In t (addTerm mainLink acc l)
               <-> In t acc \/ contributes mainLink l t.
Proof.
  intros Hnd. unfold addTerm, contributes.
  destruct (extractAlias l) as [a|]; simpl.
  - destruct (String.eqb a EmptyString) eqn:Ea; simpl.
    + split; [exact Hnd|]. intros t. split; [auto|].
      intros [H|[H [H1 _]]]; [exact H|]. inversion H; subst.
      apply String.eqb_eq in Ea. contradiction.
    + destruct (String.eqb a mainLink) eqn:Em; simpl.
      * split; [exact Hnd|]. intros t. split; [auto|].
        intros [H|[H [_ H2]]]; [exact H|]. inversion H; subst.
        apply String.eqb_eq in Em. contradiction.
      * split; [now apply setAdd_NoDup|]. intros t.
        rewrite setAdd_In. apply String.eqb_neq in Ea, Em.
        split; intros [H|H]; auto.
        -- subst t. right. auto.
        -- destruct H as [H _]. inversion H. auto.
  - split; [exact Hnd|]. intros t. split; [auto|].
    intros [H|[H _]]; [exact H|discriminate].
Qed.

Lemma connectedTerms_fold (mainLink : string) (texts : list string) :
  forall acc,
    NoDup acc ->
    NoDup (fold_left (addTerm mainLink) texts acc)
    /\ forall t, In t (fold_left (addTerm mainLink) texts acc)
                 <-> In t acc \/ exists l, In l texts /\ contributes mainLink l t.
Proof.
  induction texts as [|l rest IH]; intros acc Hnd; simpl.
  - split; [exact Hnd|]. intros t. split; [auto|]. intros [H|[l [[] _]]]. exact H.
  - destruct (addTerm_spec mainLink l Hnd) as [Hnd' Hin'].
    destruct (IH _ Hnd') as [IH1 IH2].
    split; [exact IH1|]. intros t. rewrite IH2, Hin'. split.
    + intros [[H|H]|[l' [H1 H2]]]; eauto.
    + intros [H|[l' [[H1|H1] H2]]]; subst; eauto.
Qed.

Lemma connectedTerms_spec (node : IndexNode) :
  NoDup (connectedTerms node)
  /\ forall t, In t (connectedTerms node)
               <-> exists l, In l (originalLinks node)
                             /\ contributes (displayName node) l t.
Proof.
  destruct (connectedTerms_fold (displayName node) (originalLinks node)
              (NoDup_nil string)) as [H1 H2].
  split; [exact H1|]. intros t. unfold connectedTerms. rewrite H2. simpl.
  tauto.
Qed.

(** C8.  The terms rendered for an entry hold no empty string, nothing
    twice and never the entry's display name; they are exactly the non-empty
    aliases extracted from the entry's stored original texts, the display
    name left out. *)
Theorem connectedTerms_exact (node : IndexNode) :
  ~ In EmptyString (connectedTerms node)
  /\ NoDup (connectedTerms node)
  /\ ~ In (displayName node) (connectedTerms node)
  /\ forall t, In t (connectedTerms node)
               <-> (t <> EmptyString /\ t <> displayName node
                    /\ exists l, In l (originalLinks node)
                                 /\ extractAlias l = Some t).
Proof.
  destruct (connectedTerms_spec node) as [Hnd Hin].
  repeat split.
  - intros H. apply Hin in H. destruct H as [l [_ [_ [H _]]]]. now apply H.
  - exact Hnd.
  - intros H. apply Hin in H. destruct H as [l [_ [_ [_ H]]]]. now apply H.
  - apply Hin in H. destruct H as [l [_ [_ [H _]]]]. exact H.
  - apply Hin in H. destruct H as [l [_ [_ [_ H]]]]. exact H.
  - apply Hin in H. destruct H as [l [Hl [H _]]]. eauto.
  - intros [H1 [H2 [l [Hl Ha]]]]. apply Hin. exists l. unfold contributes. auto.
Qed.

(** ** Wrapping and unwrapping a token *)

Local Open Scope string_scope.

Lemma drop_app (p s : string) : drop (String.length p) (p ++ s) = s.
Proof. induction p as [|c p IH]; simpl; [reflexivity|exact IH]. Qed.

Lemma take_app (p s : string) : take (String.length p) (p ++ s) = p.
Proof. induction p as [|c p IH]; simpl; [reflexivity|now rewrite IH]. Qed.

Lemma length_app_string (p s : string) :
  String.length (p ++ s) = (String.length p + String.length s)%nat.
Proof. induction p as [|c p IH]; simpl; [reflexivity|now rewrite IH]. Qed.

Lemma startsWith_app (p s : string) : startsWith p (p ++ s) = true.
Proof.
  induction p as [|c p IH]; simpl; [reflexivity|].
  now rewrite Ascii.eqb_refl, IH.
Qed.

Lemma stripPrefix_app (p s : string) : stripPrefix p (p ++ s) = s.
Proof. unfold stripPrefix. now rewrite startsWith_app, drop_app. Qed.

Lemma stripSuffix_app (p s : string) : stripSuffix p (s ++ p) = s.
Proof.
  unfold stripSuffix, endsWith. rewrite length_app_string.
  replace (String.length s + String.length p - String.length p)%nat
    with (String.length s) by lia.
  rewrite drop_app, String.eqb_refl, take_app.
  replace (String.length p <=? String.length s + String.length p)%nat with true;
    [reflexivity|].
  symmetry. apply Nat.leb_le. lia.
Qed.

Lemma cleanWikiLink_wrapped (s : string) :
  cleanWikiLink ("[[" ++ s ++ "]]") = s.
Proof.
  unfold cleanWikiLink.
  rewrite (stripPrefix_app "[[" (s ++ "]]")). apply stripSuffix_app.
Qed.

Lemma includes_app_bar (t a : string) :
  includes bar (t ++ String bar a) = true.
Proof.
  induction t as [|c t IH]; simpl; [reflexivity|].
  rewrite IH. apply orb_true_r.
Qed.

Lemma before_app_bar (t a : string) :
  includes bar t = false -> before bar (t ++ String bar a) = t.
Proof.
  induction t as [|c t IH]; simpl; [reflexivity|].
  destruct (Ascii.eqb c bar); simpl; [discriminate|].
  intros H. now rewrite IH.
Qed.

Lemma after_app_bar (t a : string) :
  includes bar t = false -> after bar (t ++ String bar a) = a.
Proof.
  induction t as [|c t IH]; simpl; [reflexivity|].
  destruct (Ascii.eqb c bar); simpl; [discriminate|exact IH].
Qed.

Lemma stripEmbedMarker_app_bar (t a : string) :
  startsWith "!" t = false ->
  stripEmbedMarker (t ++ String bar a) = t ++ String bar a.
Proof.
  unfold stripEmbedMarker. destruct t as [|c t]; simpl; [reflexivity|].
  rewrite andb_true_r. now intros ->.
Qed.

(** X8.  A wrapped token with a separator parses to the trimmed text before the
    separator and, as alias, to the trimmed text up to the next one. *)
Lemma wrapped_alias_parses (t a : string) :
  includes bar t = false ->
  startsWith "!" t = false ->
  extractDisplayName ("[[" ++ (t ++ String bar a) ++ "]]") = trim t
  /\ extractAlias ("[[" ++ (t ++ String bar a) ++ "]]")
     = Some (trim (before bar a)).
Proof.
  intros Hbar Hbang.
  assert (Hclean : stripEmbedMarker
                     (cleanWikiLink ("[[" ++ (t ++ String bar a) ++ "]]"))
                   = t ++ String bar a).
  { rewrite cleanWikiLink_wrapped. now apply stripEmbedMarker_app_bar. }
  split.
  - rewrite extractDisplayName_bar; rewrite Hclean.
    + now rewrite before_app_bar.
    + apply includes_app_bar.
  - rewrite extractAlias_bar; rewrite Hclean.
    + now rewrite after_app_bar.
    + apply includes_app_bar.
Qed.

(** X9.  A wrapped token without a separator parses to the text between the
    brackets as it stands, white space included, and to no alias. *)
Lemma wrapped_plain_parses (t : string) :
  includes bar t = false ->
  startsWith "!" t = false ->
  extractDisplayName ("[[" ++ t ++ "]]") = t
  /\ extractAlias ("[[" ++ t ++ "]]") = None.
Proof.
  intros Hbar Hbang. unfold extractDisplayName, extractAlias.
  rewrite cleanWikiLink_wrapped. unfold stripEmbedMarker.
  rewrite Hbang, Hbar. split; reflexivity.
Qed.

Local Open Scope list_scope.

(** ** Reference parser *)

(** C5, as the code has it.  When the cleaned token holds a separator, the
    display name is the trimmed text before the first separator and the
    alias is the trimmed text between the first separator and the next one
    (or the end); an alias that is empty after trimming is falsy and no row
    ever lists the empty string as a connected term. *)
Theorem extract_splits_at_first_separator (link : string) :
  includes bar (stripEmbedMarker (cleanWikiLink link)) = true ->
  extractDisplayName link
  = trim (before bar (stripEmbedMarker (cleanWikiLink link)))
  /\ extractAlias link
     = Some (trim (before bar (after bar (stripEmbedMarker (cleanWikiLink link)))))
  /\ (trim (before bar (after bar (stripEmbedMarker (cleanWikiLink link))))
      = EmptyString -> truthy (extractAlias link) = false)
  /\ forall node, ~ In EmptyString (connectedTerms node).
Proof.
  intros H. repeat split.
  - now apply extractDisplayName_bar.
  - now apply extractAlias_bar.
  - intros E. rewrite (extractAlias_bar _ H), E. reflexivity.
  - intros node Hin. apply connectedTerms_spec in Hin.
    destruct Hin as [l [_ [_ [Hne _]]]]. now apply Hne.
Qed.

Lemma extract_splits_at_first_separator_witness :
  extractDisplayName "[[ A |b|c]]" = "A"
  /\ extractAlias "[[ A |b|c]]" = Some "b".
Proof.
  destruct (@extract_splits_at_first_separator "[[ A |b|c]]" eq_refl)
    as [H1 [H2 _]].
  split; [exact H1|exact H2].
Defined.

(** C5 as stated fails: with two separators the alias is not the whole text
    after the first one. *)
Lemma alias_drops_text_after_second_separator :
  trim (after bar (stripEmbedMarker (cleanWikiLink "[[A|b|c]]"))) = "b|c"
  /\ extractAlias "[[A|b|c]]" = Some "b"
  /\ extractAlias "[[A|b|c]]"
     <> Some (trim (after bar (stripEmbedMarker (cleanWikiLink "[[A|b|c]]")))).
Proof. repeat split. discriminate. Qed.

(** C6.  [[Target|alias]] parses to the display name Target and the alias
    alias; [[Target]] parses to the display name Target and no alias. *)
Theorem parse_target_alias :
  extractDisplayName "[[Target|alias]]" = "Target"
  /\ extractAlias "[[Target|alias]]" = Some "alias"
  /\ extractDisplayName "[[Target]]" = "Target"
  /\ extractAlias "[[Target]]" = None.
Proof. repeat split. Qed.

(** ** Path equality *)

Lemma pathEqual_iff (np : string -> string) (a b : string) :
  pathEqual np a b = true <-> removeDots (np a) = removeDots (np b).
Proof.
  unfold pathEqual. destruct (String.eqb_spec a b) as [->|Hab].
  - tauto.
  - apply String.eqb_eq.
Qed.

Lemma pathEqual_refl (np : string -> string) (a : string) :
  pathEqual np a a = true.
Proof. unfold pathEqual. now rewrite String.eqb_refl. Qed.

(** C7 at two embedded dot segments: whenever the host's [normalizePath]
    leaves both paths alone, [removeDots] rewrites the first segment only and
    the two paths compare different. *)
Theorem pathEqual_two_dot_segments (np : string -> string) :
  np "a/./b/./c.md" = "a/./b/./c.md" ->
  np "a/b/c.md" = "a/b/c.md" ->
  removeDots (np "a/./b/./c.md") = "a/b/./c.md"
  /\ removeDots (np "a/b/c.md") = "a/b/c.md"
  /\ pathEqual np "a/./b/./c.md" "a/b/c.md" = false.
Proof.
  intros H1 H2. unfold pathEqual. rewrite H1, H2. repeat split.
Qed.

Lemma pathEqual_two_dot_segments_witness :
  pathEqual Demo.normalizePath "a/./b/./c.md" "a/b/c.md" = false.
Proof.
  exact (proj2 (proj2 (@pathEqual_two_dot_segments Demo.normalizePath
                         eq_refl eq_refl))).
Defined.

(** One embedded segment is collapsed. *)
Example pathEqual_one_dot_segment :
  pathEqual Demo.normalizePath "a/./b/c.md" "a/b/c.md" = true
  /\ pathEqual Demo.normalizePath "./a\b.md" "a/b.md" = true
  /\ pathEqual Demo.normalizePath "A/b.md" "a/b.md" = false.
Proof. repeat split. Qed.

(** ** Missing preset *)

Lemma getPresetByName_none (presets : list UsedLinks) (name : string) :
  (forall r, In r presets -> presetName r <> name) ->
  getPresetByName presets name = None.
Proof.
  intros H. unfold getPresetByName.
  destruct (find _ presets) as [r|] eqn:E; [|reflexivity].
  apply find_some in E. destruct E as [Hin Heq].
  apply String.eqb_eq in Heq. exfalso. exact (H r Hin Heq).
Qed.

(** C9.  When no preset carries the requested name, the command shows the
    notice and does nothing else: the file store is the one it started from
    and the only new notice is the one about the missing preset. *)
Theorem missing_preset_aborts (app : App) (usedLinks : list UsedLinks)
  (globalExcludes : list string) (name : string) (w : World) :
  (forall r, In r usedLinks -> presetName r <> name) ->
  getPresetByName usedLinks name = None
  /\ runCommand app usedLinks globalExcludes name w = notify w presetNotFound
  /\ store (runCommand app usedLinks globalExcludes name w) = store w
  /\ notices (runCommand app usedLinks globalExcludes name w)
     = notices w ++ [presetNotFound].
Proof.
  intros H. pose proof (getPresetByName_none usedLinks H) as E.
  unfold runCommand. rewrite E. simpl. repeat split.
Qed.

Lemma missing_preset_aborts_witness :
  let app := Demo.host Demo.scenario in
  let w := mkWorld (mkStore [("A.md", "[[B]]")] []) [] in
  runCommand app [Demo.defaults "all" "used_links"] ["used_links.md"] "gone" w
  = mkWorld (mkStore [("A.md", "[[B]]")] []) [presetNotFound].
Proof.
  intros app w.
  refine (proj1 (proj2 (@missing_preset_aborts app
            [Demo.defaults "all" "used_links"] ["used_links.md"] "gone" w _))).
  intros r [<-|[]]. simpl. discriminate.
Defined.

(** ** Own properties *)

Lemma getOwn_None (u : JsObject.t) (k : string) :
  JsObject.getOwn u k = None <-> ~ In k (map fst u).
Proof.
  induction u as [|[k' n] u IH]; simpl; [tauto|].
  destruct (String.eqb_spec k' k) as [->|Hne].
  - split; [discriminate|]. intros H. exfalso. apply H. now left.
  - rewrite IH. tauto.
Qed.

Lemma getOwn_In (u : JsObject.t) (k : string) (n : IndexNode) :
  JsObject.getOwn u k = Some n -> In (k, n) u.
Proof.
  induction u as [|[k' n'] u IH]; simpl; [discriminate|].
  destruct (String.eqb_spec k' k) as [->|Hne].
  - intros H. inversion H. now left.
  - intros H. right. now apply IH.
Qed.

Lemma In_getOwn (u : JsObject.t) (k : string) (n : IndexNode) :
  NoDup (map fst u) -> In (k, n) u -> JsObject.getOwn u k = Some n.
Proof.
  induction u as [|[k' n'] u IH]; simpl; [tauto|].
  intros Hnd [H|H].
  - inversion H; subst. now rewrite String.eqb_refl.
  - inversion Hnd as [|? ? Hnot Hnd']; subst.
    destruct (String.eqb_spec k' k) as [->|Hne].
    + exfalso. apply Hnot. apply in_map_iff. exists (k, n). auto.
    + now apply IH.
Qed.

Lemma update_keys (u : JsObject.t) (k : string) (n : IndexNode) :
  map fst (JsObject.update u k n) = map fst u.
Proof.
  induction u as [|[k' n'] u IH]; simpl; [reflexivity|].
  destruct (String.eqb k' k); simpl; [reflexivity|]. now rewrite IH.
Qed.

Lemma getOwn_update (u : JsObject.t) (k k' : string) (n : IndexNode) :
  JsObject.getOwn (JsObject.update u k n) k'
  = if String.eqb k k'
    then match JsObject.getOwn u k with Some _ => Some n | None => None end
    else JsObject.getOwn u k'.
Proof.
  induction u as [|[k0 n0] u IH]; simpl.
  - now destruct (String.eqb k k').
  - destruct (String.eqb_spec k0 k) as [->|Hne]; simpl.
    + destruct (String.eqb_spec k k') as [->|Hne']; [reflexivity|].
      reflexivity.
    + rewrite IH. destruct (String.eqb_spec k k') as [->|Hne'].
      * destruct (String.eqb_spec k0 k'); [contradiction|reflexivity].
      * reflexivity.
Qed.

Lemma getOwn_define (u : JsObject.t) (k k' : string) (n : IndexNode) :
  JsObject.getOwn (JsObject.define u k n) k'
  = match JsObject.getOwn u k' with
    | Some x => Some x
    | None => if String.eqb k k' then Some n else None
    end.
Proof.
  unfold JsObject.define. induction u as [|[k0 n0] u IH]; simpl.
  - reflexivity.
  - destruct (String.eqb k0 k'); [reflexivity|exact IH].
Qed.

Lemma setAdd_old (s : list string) (x : string) : In x s -> setAdd s x = s.
Proof.
  intros H. unfold setAdd.
  replace (existsb (String.eqb x) s) with true; [reflexivity|].
  symmetry. apply existsb_exists. exists x. split; [exact H|].
  apply String.eqb_refl.
Qed.

Lemma setAdd_new (s : list string) (x : string) :
  ~ In x s -> setAdd s x = s ++ [x].
Proof.
  intros H. unfold setAdd. destruct (existsb (String.eqb x) s) eqn:E; [|reflexivity].
  apply existsb_exists in E. destruct E as [y [Hy Hxy]].
  apply String.eqb_eq in Hxy. subst y. contradiction.
Qed.

Lemma distinct_fold (ks : list string) :
  forall acc,
    NoDup acc ->
    NoDup (fold_left setAdd ks acc)
    /\ forall k, In k (fold_left setAdd ks acc) <-> In k acc \/ In k ks.
Proof.
  induction ks as [|x ks IH]; intros acc Hnd; simpl.
  - split; [exact Hnd|]. tauto.
  - destruct (IH (setAdd acc x) (setAdd_NoDup x Hnd)) as [H1 H2].
    split; [exact H1|]. intros k. rewrite H2, setAdd_In. intuition.
Qed.

(** ** A map built by [upsert] represents the occurrences folded into it *)

Section Representation.

Variable app : App.
Variable preset : UsedLinks.

Lemma Represents_empty : Represents app preset JsObject.empty [].
Proof. split; [reflexivity|]. intros k. reflexivity. Qed.

Lemma upsert_keys (u : JsObject.t) (a : Occurrence) :
  map fst (upsert app preset u a) = setAdd (map fst u) (identityKey app a).
Proof.
  unfold upsert. destruct (JsObject.getOwn u (identityKey app a)) as [n|] eqn:E.
  - rewrite update_keys. symmetry. apply setAdd_old.
    apply getOwn_In in E. apply in_map_iff. exists (identityKey app a, n). auto.
  - unfold JsObject.define. rewrite map_app. simpl. symmetry.
    apply setAdd_new. now apply getOwn_None.
Qed.

Lemma Represents_upsert (u : JsObject.t) (xs : list Occurrence) (a : Occurrence) :
  Represents app preset u xs ->
  Represents app preset (upsert app preset u a) (xs ++ [a]).
Proof.
  intros [Hkeys Hget]. split.
  - rewrite upsert_keys, map_app, fold_left_app, Hkeys. reflexivity.
  - intros k. rewrite filter_app. simpl. unfold upsert.
    pose proof (Hget (identityKey app a)) as Ha.
    unfold hasKey at 2.
    destruct (String.eqb_spec (identityKey app a) k) as [<-|Hne].
    + destruct (filter (hasKey app (identityKey app a)) xs) as [|a0 occ] eqn:Ef.
      * simpl in Ha. rewrite Ha, getOwn_define, Ha, String.eqb_refl.
        reflexivity.
      * simpl in Ha. rewrite Ha, getOwn_update, String.eqb_refl, Ha. simpl.
        f_equal. f_equal.
        -- rewrite length_app. simpl. lia.
        -- now rewrite map_app.
    + rewrite app_nil_r, <- Hget.
      destruct (JsObject.getOwn u (identityKey app a)) as [n|] eqn:E.
      * rewrite getOwn_update.
        destruct (String.eqb_spec (identityKey app a) k); [contradiction|reflexivity].
      * rewrite getOwn_define.
        destruct (String.eqb_spec (identityKey app a) k); [contradiction|].
        now destruct (JsObject.getOwn u k).
Qed.

Lemma Represents_fold (ys : list Occurrence) :
  forall u xs,
    Represents app preset u xs ->
    Represents app preset (fold_left (upsert app preset) ys u) (xs ++ ys).
Proof.
  induction ys as [|y ys IH]; intros u xs H; simpl.
  - now rewrite app_nil_r.
  - replace (xs ++ y :: ys) with ((xs ++ [y]) ++ ys)
      by (rewrite <- app_assoc; reflexivity).
    apply IH. now apply Represents_upsert.
Qed.

(** What representing means for the entries: distinct keys, one per
    identity met, each counting the occurrences of its identity. *)
Lemma Represents_entries (u : JsObject.t) (xs : list Occurrence) :
  Represents app preset u xs ->
  NoDup (map fst u)
  /\ (forall k, In k (map fst u) <-> exists a, In a xs /\ identityKey app a = k)
  /\ (forall k n, In (k, n) u ->
        entryOf app preset (filter (hasKey app k) xs) = Some n
        /\ count n = N.of_nat (List.length (filter (hasKey app k) xs))).
Proof.
  intros [Hkeys Hget].
  destruct (distinct_fold (map (identityKey app) xs) (NoDup_nil string))
    as [Hnd Hin].
  rewrite <- Hkeys in Hnd, Hin. split; [exact Hnd|]. split.
  - intros k. rewrite Hin, in_map_iff. simpl. split.
    + intros [[]|[a [H1 H2]]]. eauto.
    + intros [a [H1 H2]]. right. eauto.
  - intros k n Hkn. pose proof (In_getOwn _ _ _ Hnd Hkn) as E.
    rewrite Hget in E. split; [exact E|].
    destruct (filter (hasKey app k) xs); simpl in E; [discriminate|].
    inversion E. reflexivity.
Qed.

End Representation.

(** ** The loop of the code against the stream of the specification *)

Section Refinement.

Variable app : App.
Variable globalExcludes : list string.
Variable preset : UsedLinks.

Local Abbreviation filterReference' := (filterReference app globalExcludes preset).
Local Abbreviation passedOf' := (passedOf app globalExcludes preset).
Local Abbreviation fileStream' := (fileStream app globalExcludes preset).
Local Abbreviation upsert' := (upsert app preset).
Local Abbreviation grabLink' := (grabLink app globalExcludes preset).
Local Abbreviation grabLinks' := (grabLinks app globalExcludes preset).
Local Abbreviation key := (identityKey app).

Lemma get_cases (u : JsObject.t) (k : string) :
  (JsObject.get u k = JsObject.Inherited
   /\ JsObject.getOwn u k = None /\ JsObject.isInherited k = true)
  \/ (JsObject.get u k <> JsObject.Inherited
      /\ (JsObject.getOwn u k = None -> JsObject.get u k = JsObject.Undefined)).
Proof.
  unfold JsObject.get. destruct (JsObject.getOwn u k) as [n|].
  - right. split; [discriminate|discriminate].
  - destruct (JsObject.isInherited k); [left; auto|right].
    split; [discriminate|reflexivity].
Qed.

(** One step of the code is the filter followed by the write, unless the
    key reads as an inherited property. *)
Lemma grabLink_filter (f : TFile) (u : JsObject.t) (l : option ReferenceCache) :
  grabLink' f u l
  = match filterReference' f l with
    | Throw m => Throw m
    | Normal None => Normal u
    | Normal (Some a) =>
        match JsObject.get u (key a) with
        | JsObject.Inherited => Throw typeErrorPush
        | _ => Normal (upsert' u a)
        end
    end.
Proof.
  unfold grabLink, filterReference. destruct l as [r|]; [|reflexivity].
  destruct (truthy (link r)); simpl; [|reflexivity].
  fold (linkpathOf app r).
  destruct (getFirstLinkpathDest app (linkpathOf app r) (path f)) as [t|].
  - destruct (nonexistentOnly preset); simpl; [reflexivity|].
    destruct (isExcluded app globalExcludes t _ _) as [[|]|m]; simpl;
      try reflexivity.
    unfold upsert, JsObject.get, identityKey, originalText, canonicalDisplay.
    simpl. now destruct (JsObject.getOwn u _) as [n|]; [|destruct (JsObject.isInherited _)].
  - simpl.
    unfold upsert, JsObject.get, identityKey, originalText, canonicalDisplay.
    simpl. now destruct (JsObject.getOwn u _) as [n|]; [|destruct (JsObject.isInherited _)].
Qed.

Lemma grabLinks_passed (f : TFile) (ls : list (option ReferenceCache)) :
  forall u,
  exists xs rest,
    fst (passedOf' f ls) = xs ++ rest
    /\ fst (grabLinks' u f ls) = fold_left upsert' xs u
    /\ ((rest = [] /\ snd (grabLinks' u f ls) = snd (passedOf' f ls))
        \/ exists m, snd (grabLinks' u f ls) = Throw m)
    /\ (noInheritedKey app (fst (passedOf' f ls)) ->
        rest = [] /\ snd (grabLinks' u f ls) = snd (passedOf' f ls)).
Proof.
  induction ls as [|l ls IH]; intros u; simpl.
  - exists [], []. repeat split; auto.
  - rewrite grabLink_filter. destruct (filterReference' f l) as [[a|]|m].
    + destruct (passedOf' f ls) as [xs0 c0] eqn:E0. simpl.
      destruct (get_cases u (key a)) as [[Hg [_ Hi]]|[Hg _]].
      * rewrite Hg. exists [], (a :: xs0). simpl. repeat split; eauto.
        -- exfalso. specialize (H a (or_introl eq_refl)). congruence.
        -- exfalso. specialize (H a (or_introl eq_refl)). congruence.
      * destruct (IH (upsert' u a)) as [xs [rest [H1 [H2 [H3 H4]]]]].
        simpl in H1, H3, H4.
        assert (Hstep : match JsObject.get u (key a) with
                        | JsObject.Inherited => Throw typeErrorPush
                        | _ => Normal (upsert' u a)
                        end = Normal (upsert' u a)).
        { destruct (JsObject.get u (key a)); congruence. }
        rewrite Hstep. exists (a :: xs), rest. simpl. rewrite H1.
        repeat split; auto.
        -- apply H4. intros b Hb. apply H. right. now rewrite <- H1.
        -- apply H4. intros b Hb. apply H. right. now rewrite <- H1.
    + apply IH.
    + exists [], []. simpl. repeat split; auto.
Qed.

Lemma processFile_stream (u : JsObject.t) (f : TFile) :
  exists xs rest,
    fileStream' f = xs ++ rest
    /\ processFile app globalExcludes preset (outputPathOf app preset) u f
       = fold_left upsert' xs u
    /\ (noInheritedKey app (fileStream' f) -> rest = []).
Proof.
  unfold processFile, fileStream.
  destruct (String.eqb (path f) (outputPathOf app preset));
    [exists [], []; auto|].
  destruct (isExcluded app globalExcludes f _ _) as [[|]|m];
    try (exists [], []; auto; fail).
  destruct (getFileCache app f) as [fc|]; [|exists [], []; auto].
  destruct (links fc) as [ls|].
  - destruct (grabLinks_passed f ls u) as [xs1 [rest1 [H1 [H2 [H3 H4]]]]].
    destruct (grabLinks' u f ls) as [u1 d1].
    destruct (passedOf' f ls) as [A1 c1]. simpl in *. subst u1 A1.
    destruct d1 as [[]|m1].
    + destruct H3 as [[-> <-]|[m Hm]]; [|discriminate].
      rewrite app_nil_r.
      destruct (includeEmbeds preset); [|exists xs1, []; rewrite !app_nil_r; auto].
      destruct (embeds fc) as [es|]; [|exists xs1, []; rewrite !app_nil_r; auto].
      destruct (grabLinks_passed f es (fold_left upsert' xs1 u))
        as [xs2 [rest2 [G1 [G2 [_ G4]]]]].
      exists (xs1 ++ xs2), rest2. rewrite G1, G2, fold_left_app, app_assoc.
      repeat split. intros Hno. apply G4. intros a Ha. rewrite G1 in Ha.
      apply Hno. rewrite <- app_assoc. apply in_or_app. now right.
    + destruct c1 as [[]|m2].
      * exists xs1, (rest1 ++ match includeEmbeds preset with
                              | true => match embeds fc with
                                        | Some es => fst (passedOf' f es)
                                        | None => []
                                        end
                              | false => []
                              end).
        rewrite app_assoc. repeat split. intros Hno.
        assert (Hno1 : noInheritedKey app (xs1 ++ rest1)).
        { intros a Ha. apply Hno. apply in_or_app. now left. }
        destruct (H4 Hno1) as [_ Habs]. discriminate.
      * exists xs1, rest1. repeat split. intros Hno. now apply H4.
  - destruct (includeEmbeds preset); [|exists [], []; auto].
    destruct (embeds fc) as [es|]; [|exists [], []; auto].
    destruct (grabLinks_passed f es u) as [xs2 [rest2 [G1 [G2 [_ G4]]]]].
    exists xs2, rest2. simpl. repeat split; auto.
    intros Hno. apply G4. exact Hno.
Qed.

Lemma fold_processFile_stream (files : list TFile) :
  forall u,
  exists xs,
    incl xs (flat_map fileStream' files)
    /\ fold_left (processFile app globalExcludes preset (outputPathOf app preset))
         files u
       = fold_left upsert' xs u
    /\ (noInheritedKey app (flat_map fileStream' files) ->
        xs = flat_map fileStream' files).
Proof.
  induction files as [|f files IH]; intros u; simpl.
  - exists []. repeat split. apply incl_refl.
  - destruct (processFile_stream u f) as [xs1 [rest1 [H1 [H2 H3]]]].
    rewrite H2.
    destruct (IH (fold_left upsert' xs1 u)) as [xs2 [I1 [I2 I3]]].
    exists (xs1 ++ xs2). rewrite I2, fold_left_app. repeat split.
    + apply incl_app.
      * apply incl_appl. rewrite H1. apply incl_appl. apply incl_refl.
      * apply incl_appr. exact I1.
    + intros Hno.
      assert (rest1 = []) as ->.
      { apply H3. intros a Ha. apply Hno. apply in_or_app. now left. }
      rewrite app_nil_r in H1. rewrite H1. f_equal. apply I3.
      intros a Ha. apply Hno. apply in_or_app. now right.
Qed.

(** The map of a run represents occurrences of the stream; all of them when
    no identity reads as an inherited property. *)
Lemma collectLinks_stream :
  exists xs,
    incl xs (occurrenceStream app globalExcludes preset)
    /\ Represents app preset (collectLinks app globalExcludes preset) xs
    /\ (noInheritedKey app (occurrenceStream app globalExcludes preset) ->
        xs = occurrenceStream app globalExcludes preset).
Proof.
  unfold collectLinks, occurrenceStream.
  destruct (fold_processFile_stream (getMarkdownFiles app) JsObject.empty)
    as [xs [H1 [H2 H3]]].
  exists xs. split; [exact H1|]. split; [|exact H3].
  rewrite H2. apply (@Represents_fold app preset xs JsObject.empty []).
  apply Represents_empty.
Qed.

End Refinement.

(** ** Occurrences that do not reach the map *)

Section Skipping.

Variable app : App.
Variable globalExcludes : list string.
Variable preset : UsedLinks.

Lemma grabLinks_app (f : TFile) (pre post : list (option ReferenceCache)) :
  forall u,
    grabLinks app globalExcludes preset u f (pre ++ post)
    = match grabLinks app globalExcludes preset u f pre with
      | (u1, Normal _) => grabLinks app globalExcludes preset u1 f post
      | (u1, Throw m) => (u1, Throw m)
      end.
Proof.
  induction pre as [|l pre IH]; intros u; simpl; [reflexivity|].
  destruct (grabLink app globalExcludes preset f u l) as [u1|m].
  - apply IH.
  - reflexivity.
Qed.

Lemma grabLink_absent (f : TFile) (u : JsObject.t) (l : option ReferenceCache) :
  (l = None
   \/ exists r, l = Some r /\ (link r = None \/ link r = Some EmptyString)) ->
  grabLink app globalExcludes preset f u l = Normal u.
Proof.
  intros [->|[r [-> [H|H]]]]; simpl; [reflexivity| |]; now rewrite H.
Qed.

Lemma isExcluded_global (t : TFile) (fp gp : list string) (b : bool) :
  existsb (fun g => pathEqual (normalizePath app) g (path t)) globalExcludes
  = true ->
  isExcluded app globalExcludes t fp gp = Normal b -> b = true.
Proof.
  unfold isExcluded. intros ->.
  destruct (someRegExp app fp (name t)) as [b1|]; simpl; [|discriminate].
  destruct (picomatchIsMatch app (path t) gp) as [b2|]; simpl; [|discriminate].
  intros H. now inversion H.
Qed.

Lemma listed_is_excluded (p : string) :
  In p globalExcludes ->
  existsb (fun g => pathEqual (normalizePath app) g p) globalExcludes = true.
Proof.
  intros H. apply existsb_exists. exists p. split; [exact H|].
  apply pathEqual_refl.
Qed.

Lemma filterReference_Some (f : TFile) (l : option ReferenceCache) (a : Occurrence) :
  filterReference app globalExcludes preset f l = Normal (Some a) ->
  source a = f
  /\ l = Some (reference a)
  /\ truthy (link (reference a)) = true
  /\ target a = getFirstLinkpathDest app (linkpathOf app (reference a)) (path f)
  /\ forall t, target a = Some t ->
       nonexistentOnly preset = false
       /\ isExcluded app globalExcludes t
            (excludeToFilenames preset) (excludeToGlobs preset) = Normal false.
Proof.
  unfold filterReference. destruct l as [r|]; [|discriminate].
  destruct (truthy (link r)) eqn:Et; simpl; [|discriminate].
  destruct (getFirstLinkpathDest app (linkpathOf app r) (path f)) as [t|] eqn:Er.
  - destruct (nonexistentOnly preset) eqn:En; [discriminate|].
    destruct (isExcluded app globalExcludes t _ _) as [[|]|m] eqn:Ex; simpl;
      try discriminate.
    intros H. inversion H; subst; simpl. repeat split; auto.
    match goal with Ht : Some _ = Some _ |- _ => inversion Ht; subst end.
    exact Ex.
  - intros H. inversion H; subst; simpl. repeat split; auto; discriminate.
Qed.

Lemma passedOf_In (f : TFile) (ls : list (option ReferenceCache)) (a : Occurrence) :
  In a (fst (passedOf app globalExcludes preset f ls)) ->
  exists l, In l ls /\ filterReference app globalExcludes preset f l = Normal (Some a).
Proof.
  induction ls as [|l ls IH]; simpl; [tauto|].
  destruct (filterReference app globalExcludes preset f l) as [[b|]|m] eqn:E.
  - destruct (passedOf app globalExcludes preset f ls) as [xs c]. simpl in *.
    intros [<-|H]; [eauto|].
    destruct (IH H) as [l' [H1 H2]]. eauto.
  - intros H. destruct (IH H) as [l' [H1 H2]]. eauto.
  - simpl. tauto.
Qed.

Lemma fileStream_In (f : TFile) (a : Occurrence) :
  In a (fileStream app globalExcludes preset f) ->
  path f <> outputPathOf app preset
  /\ exists l, filterReference app globalExcludes preset f l = Normal (Some a).
Proof.
  unfold fileStream.
  destruct (String.eqb_spec (path f) (outputPathOf app preset)) as [E|E];
    [simpl; tauto|].
  intros H. split; [exact E|].
  destruct (isExcluded app globalExcludes f _ _) as [[|]|m]; try (simpl in H; tauto).
  destruct (getFileCache app f) as [fc|]; [|simpl in H; tauto].
  assert (Hemb : In a (if includeEmbeds preset
                       then match embeds fc with
                            | Some es => fst (passedOf app globalExcludes preset f es)
                            | None => []
                            end
                       else []) ->
                 exists l, filterReference app globalExcludes preset f l = Normal (Some a)).
  { destruct (includeEmbeds preset); [|simpl; tauto].
    destruct (embeds fc) as [es|]; [|simpl; tauto].
    intros Ha. destruct (passedOf_In _ _ _ Ha) as [l [_ Hl]]. eauto. }
  destruct (links fc) as [ls|].
  - pose proof (passedOf_In f ls a) as Hls.
    destruct (passedOf app globalExcludes preset f ls) as [xs [[]|m]];
      simpl in *.
    + apply in_app_or in H. destruct H as [H|H]; [|now apply Hemb].
      destruct (Hls H) as [l [_ Hl]]. eauto.
    + destruct (Hls H) as [l [_ Hl]]. eauto.
  - simpl in H. now apply Hemb.
Qed.

(** No admitted occurrence has the output note as its source or a globally
    excluded note as its target. *)
Lemma occurrenceStream_sound (a : Occurrence) :
  In a (occurrenceStream app globalExcludes preset) ->
  path (source a) <> outputPathOf app preset
  /\ forall t, target a = Some t ->
       existsb (fun g => pathEqual (normalizePath app) g (path t)) globalExcludes
       = false.
Proof.
  unfold occurrenceStream. intros H. apply in_flat_map in H.
  destruct H as [f [_ Hf]]. apply fileStream_In in Hf.
  destruct Hf as [Hout [l Hl]]. apply filterReference_Some in Hl.
  destruct Hl as [Hs [_ [_ [_ Ht]]]]. subst f. split; [exact Hout|].
  intros t Et. destruct (Ht t Et) as [_ Hx].
  destruct (existsb _ globalExcludes) eqn:E; [|reflexivity].
  pose proof (isExcluded_global t _ _ E Hx). discriminate.
Qed.

End Skipping.

(** ** Claims about single occurrences *)

(** C10.  An array element that is absent, or whose link text is absent or
    empty, leaves the map as it is and raises nothing; the loop goes on with
    the elements after it, wherever the element stands in the array. *)
Theorem absent_reference_is_skipped (app : App) (globalExcludes : list string)
  (preset : UsedLinks) (f : TFile) (u : JsObject.t)
  (l : option ReferenceCache) (pre post : list (option ReferenceCache)) :
  (l = None
   \/ exists r, l = Some r /\ (link r = None \/ link r = Some EmptyString)) ->
  grabLink app globalExcludes preset f u l = Normal u
  /\ grabLinks app globalExcludes preset u f (l :: post)
     = grabLinks app globalExcludes preset u f post
  /\ grabLinks app globalExcludes preset u f (pre ++ l :: post)
     = grabLinks app globalExcludes preset u f (pre ++ post).
Proof.
  intros H. split; [now apply grabLink_absent|]. split.
  - simpl. now rewrite grabLink_absent.
  - rewrite !grabLinks_app.
    destruct (grabLinks app globalExcludes preset u f pre) as [u1 [[]|m]];
      [|reflexivity].
    simpl. now rewrite grabLink_absent.
Qed.

Lemma absent_reference_is_skipped_witness :
  let app := Demo.host Demo.scenario in
  let r := Demo.defaults "all" "used_links" in
  let l := Some (mkRef (Some EmptyString) (Some "[[]]")) in
  grabLinks app ["used_links.md"] r JsObject.empty (Demo.note "A.md")
    ([Demo.wiki "B"] ++ l :: [Demo.wiki "X"])
  = grabLinks app ["used_links.md"] r JsObject.empty (Demo.note "A.md")
      ([Demo.wiki "B"] ++ [Demo.wiki "X"]).
Proof.
  intros app r l.
  refine (proj2 (proj2 (@absent_reference_is_skipped app ["used_links.md"] r
            (Demo.note "A.md") JsObject.empty l [Demo.wiki "B"]
            [Demo.wiki "X"] _))).
  right. exists (mkRef (Some EmptyString) (Some "[[]]")).
  split; [reflexivity|right; reflexivity].
Defined.

(** C2.  An occurrence whose link path resolves to a note is discarded when
    the preset asks for nonexistent targets only or when the path filter
    excludes the note under the preset's to-filters: the map is returned as
    it was.  On the scenario vault (A links B and C, B links C, C links B
    and the absent X) a run with [nonexistentOnly] yields the single entry
    X with count 1. *)
Theorem resolved_reference_is_discarded (app : App)
  (globalExcludes : list string) (preset : UsedLinks) (f : TFile)
  (u : JsObject.t) (r : ReferenceCache) (raw : string) (t : TFile) :
  link r = Some raw ->
  raw <> EmptyString ->
  getFirstLinkpathDest app (getLinkpath app raw) (path f) = Some t ->
  (nonexistentOnly preset = true
   \/ isExcluded app globalExcludes t
        (excludeToFilenames preset) (excludeToGlobs preset) = Normal true) ->
  grabLink app globalExcludes preset f u (Some r) = Normal u
  /\ (let host := Demo.host Demo.scenario in
      let only := Demo.nonexistentOnlyPreset "all" "used_links" in
      let found := collectLinks host (setupCommands host [only]) only in
      map (fun e => (fst e, count (snd e), displayName (snd e))) found
      = [("x", 1%N, "X")]
      /\ renderRows host only found = ["| 1 | [[X]] |  |" ++ newline]%string).
Proof.
  intros Hl Hraw Hres Hwhy. split.
  - unfold grabLink. rewrite Hl. simpl.
    apply String.eqb_neq in Hraw. rewrite Hraw. simpl. rewrite Hres.
    destruct Hwhy as [Hn|Hx].
    + now rewrite Hn.
    + destruct (nonexistentOnly preset); [reflexivity|]. now rewrite Hx.
  - vm_compute. split; reflexivity.
Qed.

Lemma resolved_reference_is_discarded_witness :
  let host := Demo.host Demo.scenario in
  let only := Demo.nonexistentOnlyPreset "all" "used_links" in
  grabLink host (setupCommands host [only]) only (Demo.note "A.md")
    JsObject.empty (Demo.wiki "B")
  = Normal JsObject.empty.
Proof.
  intros host only.
  refine (proj1 (@resolved_reference_is_discarded host
            (setupCommands host [only]) only (Demo.note "A.md")
            JsObject.empty (mkRef (Some "B") (Some "[[B]]")) "B"
            (Demo.note "B.md") eq_refl _ eq_refl (or_introl eq_refl))).
  discriminate.
Defined.

(** ** Output notes *)

(** C3.  A note whose path is the preset's output path ([.md] appended when
    missing, then normalised) is passed over by the loop, whatever it links
    to; an occurrence that resolves to the output note of any configured
    preset never changes the map; and every entry of the final map stems
    from an admitted occurrence whose source is not the output note and
    whose target, when it resolves, is no configured preset's output note. *)
Theorem output_notes_are_excluded (app : App) (usedLinks : list UsedLinks)
  (preset : UsedLinks) :
  (forall u f,
      path f = outputPathOf app preset ->
      processFile app (setupCommands app usedLinks) preset
        (outputPathOf app preset) u f = u)
  /\ (forall f u r t u',
        getFirstLinkpathDest app (linkpathOf app r) (path f) = Some t ->
        (exists p, In p usedLinks /\ path t = outputPathOf app p) ->
        grabLink app (setupCommands app usedLinks) preset f u (Some r)
        = Normal u' ->
        u' = u)
  /\ (forall e,
        In e (collectLinks app (setupCommands app usedLinks) preset) ->
        exists a,
          In a (occurrenceStream app (setupCommands app usedLinks) preset)
          /\ identityKey app a = fst e
          /\ path (source a) <> outputPathOf app preset
          /\ forall t p, target a = Some t -> In p usedLinks ->
               path t <> outputPathOf app p).
Proof.
  split; [|split].
  - intros u f Hf. unfold processFile. now rewrite Hf, String.eqb_refl.
  - intros f u r t u' Hres [p [Hp Ht]] Hstep.
    rewrite grabLink_filter in Hstep.
    destruct (filterReference app (setupCommands app usedLinks) preset f (Some r))
      as [[a|]|m] eqn:Ea; [|now inversion Hstep|discriminate].
    exfalso. apply filterReference_Some in Ea.
    destruct Ea as [_ [Hr [_ [Htgt Hex]]]]. inversion Hr; subst r.
    rewrite Hres in Htgt. destruct (Hex t Htgt) as [_ Hx].
    assert (Hin : In (path t) (setupCommands app usedLinks)).
    { rewrite Ht. unfold setupCommands. now apply in_map. }
    pose proof (isExcluded_global app _ t _ _ (listed_is_excluded app _ _ Hin) Hx).
    discriminate.
  - intros [k n] He.
    destruct (collectLinks_stream app (setupCommands app usedLinks) preset)
      as [xs [Hincl [Hrep _]]].
    destruct (Represents_entries Hrep) as [_ [Hkeys _]].
    assert (Hk : In k (map fst (collectLinks app (setupCommands app usedLinks) preset))).
    { apply in_map_iff. exists (k, n). auto. }
    apply Hkeys in Hk. destruct Hk as [a [Ha Hka]].
    exists a. pose proof (Hincl a Ha) as Hs.
    destruct (occurrenceStream_sound _ _ _ _ Hs) as [Hsrc Htgt].
    repeat split; auto.
    intros t p Et Hp Hpath. specialize (Htgt t Et).
    assert (Hin : In (path t) (setupCommands app usedLinks)).
    { rewrite Hpath. unfold setupCommands. now apply in_map. }
    rewrite (listed_is_excluded app _ _ Hin) in Htgt. discriminate.
Qed.

(** ** One entry per identity *)

(** X17.  Away from the inherited property names the map of a run has one entry
    per identity of the admitted stream, in the order the identities are
    first met, and every entry is the one its occurrences amount to. *)
Theorem collectLinks_one_entry_per_identity (app : App)
  (globalExcludes : list string) (preset : UsedLinks) :
  noInheritedKey app (occurrenceStream app globalExcludes preset) ->
  let found := collectLinks app globalExcludes preset in
  let stream := occurrenceStream app globalExcludes preset in
  NoDup (map fst found)
  /\ map fst found = fold_left setAdd (map (identityKey app) stream) []
  /\ (forall k, In k (map fst found)
                <-> exists a, In a stream /\ identityKey app a = k)
  /\ (forall k n, In (k, n) found ->
        entryOf app preset (filter (hasKey app k) stream) = Some n
        /\ count n = N.of_nat (List.length (filter (hasKey app k) stream))).
Proof.
  intros Hno found stream.
  destruct (collectLinks_stream app globalExcludes preset) as [xs [_ [Hrep Hall]]].
  rewrite (Hall Hno) in Hrep. fold stream in Hrep. fold found in Hrep.
  destruct (Represents_entries Hrep) as [H1 [H2 H3]].
  destruct Hrep as [Hkeys _]. auto.
Qed.

Example scenario_one_entry_per_identity :
  let host := Demo.host Demo.scenario in
  let all := Demo.defaults "all" "used_links" in
  let excludes := setupCommands host [all] in
  map (identityKey host) (occurrenceStream host excludes all)
  = ["b.md"; "c.md"; "c.md"; "b.md"; "x"]
  /\ map fst (collectLinks host excludes all) = ["b.md"; "c.md"; "x"]
  /\ forall k n, In (k, n) (collectLinks host excludes all) ->
       count n = N.of_nat (List.length
                   (filter (hasKey host k) (occurrenceStream host excludes all))).
Proof.
  intros host all excludes.
  assert (Hno : noInheritedKey host (occurrenceStream host excludes all)).
  { intros a Ha. vm_compute in Ha.
    repeat (destruct Ha as [<-|Ha]; [reflexivity|]). destruct Ha. }
  destruct (collectLinks_stream host excludes all) as [xs [_ [Hrep Hall]]].
  rewrite (Hall Hno) in Hrep.
  destruct (Represents_entries Hrep) as [_ [_ H]].
  split; [reflexivity|]. split; [reflexivity|].
  intros k n Hkn. now apply H.
Qed.

(** C1 at an identity that reads as an inherited property.  The note A holds
    the unresolved links constructor and B.  Both are admitted; the read of
    the key constructor finds the inherited property, the write that follows
    throws, the error is caught for the note, and the run ends with no entry
    at all: neither for constructor nor for the link after it. *)
Theorem inherited_key_loses_entries :
  let vault := [(Demo.note "A.md", [Demo.wiki "constructor"; Demo.wiki "B"])] in
  let host := Demo.host vault in
  let all := Demo.defaults "all" "used_links" in
  let excludes := setupCommands host [all] in
  map (identityKey host) (occurrenceStream host excludes all)
  = ["constructor"; "b"]
  /\ JsObject.get JsObject.empty "constructor" = JsObject.Inherited
  /\ grabLink host excludes all (Demo.note "A.md") JsObject.empty
       (Demo.wiki "constructor") = Throw typeErrorPush
  /\ collectLinks host excludes all = [].
Proof. vm_compute. repeat split. Qed.

(** The same note without the first link gets its entry. *)
Example ordinary_key_keeps_entry :
  let vault := [(Demo.note "A.md", [Demo.wiki "B"; Demo.wiki "b"])] in
  let host := Demo.host vault in
  let all := Demo.defaults "all" "used_links" in
  map (fun e => (fst e, count (snd e)))
      (collectLinks host (setupCommands host [all]) all)
  = [("b", 2%N)].
Proof. vm_compute. reflexivity. Qed.

(** ** Sorting *)

Section Sorting.

Variable A : Type.
Variable cmp : A -> A -> Z.

Lemma insertBy_perm (x : A) (l : list A) :
  Permutation (insertBy cmp x l) (x :: l).
Proof.
  induction l as [|y l IH]; simpl; [apply Permutation_refl|].
  destruct (cmp x y <=? 0)%Z; [apply Permutation_refl|].
  eapply Permutation_trans; [apply perm_skip; exact IH|apply perm_swap].
Qed.

Lemma sortBy_perm (l : list A) : Permutation (sortBy cmp l) l.
Proof.
  induction l as [|x l IH]; simpl; [constructor|].
  eapply Permutation_trans; [apply insertBy_perm|]. now apply perm_skip.
Qed.

Hypothesis cmp_consistent : Consistent cmp.

Lemma insertBy_sorted (x : A) (l : list A) :
  StronglySorted (fun a b => (cmp a b <= 0)%Z) l ->
  StronglySorted (fun a b => (cmp a b <= 0)%Z) (insertBy cmp x l).
Proof.
  destruct cmp_consistent as [Htotal Htrans].
  induction l as [|y l IH]; intros Hs; simpl.
  - constructor; [constructor|constructor].
  - apply StronglySorted_inv in Hs. destruct Hs as [Hs Hy].
    destruct (Z.leb_spec (cmp x y) 0) as [Hle|Hgt].
    + constructor; [constructor; assumption|].
      constructor; [exact Hle|].
      eapply Forall_impl; [|exact Hy]. intros z Hz. simpl in Hz.
      now apply Htrans with y.
    + constructor; [now apply IH|].
      assert (Hyx : (cmp y x <= 0)%Z) by (destruct (Htotal x y); [lia|assumption]).
      eapply Permutation_Forall; [apply Permutation_sym, insertBy_perm|].
      constructor; assumption.
Qed.

Lemma sortBy_sorted (l : list A) :
  StronglySorted (fun a b => (cmp a b <= 0)%Z) (sortBy cmp l).
Proof.
  induction l as [|x l IH]; simpl; [constructor|]. now apply insertBy_sorted.
Qed.

Lemma insertBy_stable (z x : A) (l : list A) :
  filter (tie cmp z) (insertBy cmp x l) = filter (tie cmp z) (x :: l).
Proof.
  destruct cmp_consistent as [_ Htrans].
  induction l as [|y l IH]; simpl; [reflexivity|].
  destruct (Z.leb_spec (cmp x y) 0) as [Hle|Hgt]; [reflexivity|].
  simpl. rewrite IH. simpl.
  destruct (tie cmp z x) eqn:Ex; destruct (tie cmp z y) eqn:Ey; try reflexivity.
  exfalso. unfold tie in Ex, Ey.
  apply andb_prop in Ex, Ey. destruct Ex as [_ Ex], Ey as [Ey _].
  apply Z.leb_le in Ex, Ey. pose proof (Htrans x z y Ex Ey). lia.
Qed.

Lemma sortBy_stable (z : A) (l : list A) :
  filter (tie cmp z) (sortBy cmp l) = filter (tie cmp z) l.
Proof.
  induction l as [|x l IH]; simpl; [reflexivity|].
  rewrite insertBy_stable. simpl. now rewrite IH.
Qed.

End Sorting.

Lemma byCount_consistent : Consistent byCount.
Proof. unfold Consistent, byCount. split; intros; lia. Qed.

Lemma tie_byCount (x e : Entry) :
  tie byCount x e = (count (snd e) =? count (snd x))%N.
Proof.
  unfold tie, byCount.
  destruct (N.eqb_spec (count (snd e)) (count (snd x))) as [E|E].
  - rewrite E, Z.sub_diag. reflexivity.
  - apply andb_false_iff.
    destruct (Z.leb_spec (Z.of_N (count (snd e)) - Z.of_N (count (snd x))) 0);
      destruct (Z.leb_spec (Z.of_N (count (snd x)) - Z.of_N (count (snd e))) 0);
      auto.
    exfalso. apply E. lia.
Qed.

Lemma byName_consistent (app : App) :
  Consistent (localeCompare app) -> Consistent (byName app).
Proof.
  intros [Htotal Htrans]. unfold byName. split.
  - intros a b. apply Htotal.
  - intros a b c. apply Htrans.
Qed.

Lemma insertByIndex_perm (x : Entry) (l : list Entry) :
  Permutation (JsObject.insertByIndex x l) (x :: l).
Proof.
  induction l as [|y l IH]; simpl; [apply Permutation_refl|].
  destruct (JsObject.indexOf (fst x) <=? JsObject.indexOf (fst y))%N;
    [apply Permutation_refl|].
  eapply Permutation_trans; [apply perm_skip; exact IH|apply perm_swap].
Qed.

Lemma indexOrder_perm (l : list Entry) :
  Permutation (fold_right JsObject.insertByIndex [] l) l.
Proof.
  induction l as [|x l IH]; simpl; [constructor|].
  eapply Permutation_trans; [apply insertByIndex_perm|]. now apply perm_skip.
Qed.

Lemma entries_perm (u : JsObject.t) : Permutation (JsObject.entries u) u.
Proof.
  unfold JsObject.entries.
  apply Permutation_trans
    with (filter (fun e => JsObject.isArrayIndex (fst e)) u
          ++ filter (fun e => negb (JsObject.isArrayIndex (fst e))) u).
  - apply Permutation_app_tail. apply indexOrder_perm.
  - induction u as [|x u IH]; simpl; [constructor|].
    destruct (JsObject.isArrayIndex (fst x)); simpl.
    + now apply perm_skip.
    + eapply Permutation_trans; [apply Permutation_sym, Permutation_middle|].
      now apply perm_skip.
Qed.

Lemma insertByIndex_sorted (x : Entry) (l : list Entry) :
  StronglySorted
    (fun a b : Entry => (JsObject.indexOf (fst a) <= JsObject.indexOf (fst b))%N) l ->
  StronglySorted
    (fun a b : Entry => (JsObject.indexOf (fst a) <= JsObject.indexOf (fst b))%N)
    (JsObject.insertByIndex x l).
Proof.
  induction l as [|y l IH]; intros Hs; simpl.
  - constructor; constructor.
  - apply StronglySorted_inv in Hs. destruct Hs as [Hs Hy].
    destruct (N.leb_spec (JsObject.indexOf (fst x)) (JsObject.indexOf (fst y)))
      as [Hle|Hgt].
    + constructor; [constructor; assumption|].
      constructor; [exact Hle|].
      eapply Forall_impl; [|exact Hy]. intros z Hz. simpl in Hz. lia.
    + constructor; [now apply IH|].
      eapply Permutation_Forall; [apply Permutation_sym, insertByIndex_perm|].
      constructor; [lia|assumption].
Qed.

(** [Object.entries]: the array-index keys in ascending order, then the
    other keys as they were created. *)
Lemma entries_order (u : JsObject.t) :
  exists indexed,
    JsObject.entries u
    = indexed ++ filter (fun e => negb (JsObject.isArrayIndex (fst e))) u
    /\ Permutation indexed (filter (fun e => JsObject.isArrayIndex (fst e)) u)
    /\ StronglySorted
         (fun a b : Entry =>
            (JsObject.indexOf (fst a) <= JsObject.indexOf (fst b))%N) indexed.
Proof.
  exists (fold_right JsObject.insertByIndex []
            (filter (fun e => JsObject.isArrayIndex (fst e)) u)).
  split; [reflexivity|]. split; [apply indexOrder_perm|].
  induction (filter (fun e => JsObject.isArrayIndex (fst e)) u) as [|x l IH];
    simpl; [constructor|]. now apply insertByIndex_sorted.
Qed.

Lemma entries_creation_order (u : JsObject.t) :
  (forall k, In k (map fst u) -> JsObject.isArrayIndex k = false) ->
  JsObject.entries u = u.
Proof.
  intros H. unfold JsObject.entries.
  assert (Hidx : filter (fun e => JsObject.isArrayIndex (fst e)) u = []).
  { induction u as [|x u IH]; simpl; [reflexivity|].
    rewrite (H (fst x)) by (simpl; auto). apply IH.
    intros k Hk. apply H. simpl. auto. }
  rewrite Hidx. simpl.
  induction u as [|x u IH]; simpl; [reflexivity|].
  rewrite (H (fst x)) by (simpl; auto). simpl. f_equal. apply IH.
  - intros k Hk. apply H. simpl. auto.
  - simpl in Hidx. rewrite (H (fst x)) in Hidx by (simpl; auto). exact Hidx.
Qed.

Lemma StronglySorted_weaken {A} (R S : A -> A -> Prop) (l : list A) :
  (forall a b, R a b -> S a b) -> StronglySorted R l -> StronglySorted S l.
Proof.
  intros HRS H. induction H as [|a l Hl IH Ha]; constructor; [exact IH|].
  eapply Forall_impl; [|exact Ha]. intros b. apply HRS.
Qed.

Lemma compareStrings_consistent : Consistent Demo.compareStrings.
Proof.
  unfold Consistent, Demo.compareStrings. split.
  - intros a b. rewrite (String.compare_antisym a b).
    destruct (String.compare b a); simpl; lia.
  - intros a b c.
    destruct (String.compare a b) eqn:E1; destruct (String.compare b c) eqn:E2;
      try lia; intros _ _.
    + apply String.compare_eq_iff in E1, E2. subst.
      pose proof (proj2 (String_as_OT.cmp_eq c c) eq_refl) as Hc.
      unfold String_as_OT.cmp in Hc. rewrite Hc. lia.
    + apply String.compare_eq_iff in E1. subst. rewrite E2. lia.
    + apply String.compare_eq_iff in E2. subst. rewrite E1. lia.
    + apply String_as_OT.cmp_lt in E1, E2.
      pose proof (@String_as_OT.lt_trans a b c E1 E2) as E3.
      apply String_as_OT.cmp_lt in E3. unfold String_as_OT.cmp in E3.
      rewrite E3. lia.
Qed.

(** C4, as the code has it.  The rows are the entries of the map, each once.
    In alphabetical mode, for a consistent locale comparison, they are in
    non-decreasing order of the lower-cased display name; otherwise they are
    in non-increasing order of count.  In both modes entries that tie keep
    the order in which [Object.entries] lists them: the array-index keys in
    ascending order, then the other keys in creation order, which is the
    creation order of all entries whenever no key is an array index. *)
Theorem rows_sorted_and_stable (app : App) (preset : UsedLinks)
  (u : JsObject.t) :
  Consistent (localeCompare app) ->
  renderRows app preset u = map renderRow (sortedLinks app preset u)
  /\ Permutation (sortedLinks app preset u) u
  /\ (sortAlphabetically preset = true ->
        StronglySorted (fun a b => (byName app a b <= 0)%Z)
                       (sortedLinks app preset u)
        /\ forall x, filter (tie (byName app) x) (sortedLinks app preset u)
                     = filter (tie (byName app) x) (JsObject.entries u))
  /\ (sortAlphabetically preset = false ->
        StronglySorted (fun a b : Entry => (count (snd b) <= count (snd a))%N)
                       (sortedLinks app preset u)
        /\ forall x : Entry,
             filter (fun e : Entry => (count (snd e) =? count (snd x))%N)
                            (sortedLinks app preset u)
                     = filter (fun e : Entry => (count (snd e) =? count (snd x))%N)
                              (JsObject.entries u))
  /\ ((forall k, In k (map fst u) -> JsObject.isArrayIndex k = false) ->
        JsObject.entries u = u)
  /\ (exists indexed,
        JsObject.entries u
        = indexed ++ filter (fun e => negb (JsObject.isArrayIndex (fst e))) u
        /\ Permutation indexed
             (filter (fun e => JsObject.isArrayIndex (fst e)) u)
        /\ StronglySorted
             (fun a b : Entry =>
                (JsObject.indexOf (fst a) <= JsObject.indexOf (fst b))%N)
             indexed).
Proof.
  intros Hlc. split; [reflexivity|]. split; [|split; [|split; [|split]]].
  - unfold sortedLinks. eapply Permutation_trans; [|apply entries_perm].
    destruct (sortAlphabetically preset); apply sortBy_perm.
  - intros Hs. unfold sortedLinks. rewrite Hs. split.
    + apply sortBy_sorted. now apply byName_consistent.
    + intros x. apply sortBy_stable. now apply byName_consistent.
  - intros Hs. unfold sortedLinks. rewrite Hs. split.
    + eapply StronglySorted_weaken;
        [|apply (sortBy_sorted byCount_consistent)].
      intros a b. unfold byCount. simpl. lia.
    + intros x.
      rewrite <- (filter_ext _ _ (tie_byCount x) (sortBy byCount (JsObject.entries u))).
      rewrite <- (filter_ext _ _ (tie_byCount x) (JsObject.entries u)).
      apply sortBy_stable. exact byCount_consistent.
  - apply entries_creation_order.
  - apply entries_order.
Qed.

Lemma rows_sorted_and_stable_witness :
  let vault := [(Demo.note "A.md", [Demo.wiki "10"; Demo.wiki "9"])] in
  let host := Demo.host vault in
  let all := Demo.defaults "all" "used_links" in
  let found := collectLinks host (setupCommands host [all]) all in
  StronglySorted (fun a b : Entry => (count (snd b) <= count (snd a))%N)
                 (sortedLinks host all found).
Proof.
  intros vault host all found.
  exact (proj1 (proj1 (proj2 (proj2 (proj2
           (@rows_sorted_and_stable host all found compareStrings_consistent))))
           eq_refl)).
Defined.

(** C4 as stated fails on ties: the links [[10]] and [[9]] are met in that
    order and both count once, yet the row of 9 comes first. *)
Lemma index_keys_leave_creation_order :
  let vault := [(Demo.note "A.md", [Demo.wiki "10"; Demo.wiki "9"])] in
  let host := Demo.host vault in
  let all := Demo.defaults "all" "used_links" in
  let found := collectLinks host (setupCommands host [all]) all in
  sortAlphabetically all = false
  /\ map (fun e => (fst e, count (snd e))) found = [("10", 1%N); ("9", 1%N)]
  /\ map fst (sortedLinks host all found) = ["9"; "10"]
  /\ renderRows host all found
     = ["| 1 | [[9]] |  |" ++ newline; "| 1 | [[10]] |  |" ++ newline]%string
  /\ filter (fun e : Entry => (count (snd e) =? 1)%N) (sortedLinks host all found)
     <> filter (fun e : Entry => (count (snd e) =? 1)%N) found.
Proof. vm_compute. repeat split. discriminate. Qed.

(* ================================================================== *)
(** * Further properties of the code *)

Local Open Scope string_scope.

Lemma append_nil_r_string (s : string) : s ++ EmptyString = s.
Proof. induction s as [|c s IH]; simpl; [reflexivity|now rewrite IH]. Qed.

(** ** Paths *)

(** X1.  [pathEqual] is an equivalence on paths, whatever the host's
    [normalizePath] does. *)
Theorem pathEqual_equivalence (np : string -> string) :
  (forall a, pathEqual np a a = true)
  /\ (forall a b, pathEqual np a b = pathEqual np b a)
  /\ (forall a b c,
        pathEqual np a b = true -> pathEqual np b c = true ->
        pathEqual np a c = true).
Proof.
  split; [apply pathEqual_refl|]. split.
  - intros a b. unfold pathEqual. rewrite (String.eqb_sym b a).
    destruct (String.eqb a b); [reflexivity|]. apply String.eqb_sym.
  - intros a b c Hab Hbc. apply pathEqual_iff in Hab, Hbc.
    apply pathEqual_iff. congruence.
Qed.

Lemma includes_drop (c : ascii) (n : nat) :
  forall s, includes c s = false -> includes c (drop n s) = false.
Proof.
  induction n as [|n IH]; intros s H; simpl; [exact H|].
  destruct s as [|d r]; [reflexivity|]. simpl in H.
  apply orb_false_iff in H. apply IH. tauto.
Qed.

Lemma replaceBackslashes_clean (s : string) :
  includes backslash (replaceBackslashes s) = false.
Proof.
  induction s as [|c r IH]; simpl; [reflexivity|]. rewrite IH.
  destruct (Ascii.eqb c backslash) eqn:E; [reflexivity|].
  now rewrite E.
Qed.

Lemma replaceFirstSlashDotSlash_keeps_clean (c : ascii) :
  Ascii.eqb slash c = false ->
  forall s, includes c s = false ->
            includes c (replaceFirstSlashDotSlash s) = false.
Proof.
  intros Hc s. induction s as [|d r IH]; intros H; [reflexivity|].
  simpl in H. apply orb_false_iff in H. destruct H as [Hd Hr].
  unfold replaceFirstSlashDotSlash. fold replaceFirstSlashDotSlash.
  destruct (startsWith "/./" (String d r)).
  - cbn [includes]. rewrite Hc. cbn [orb]. now apply includes_drop.
  - cbn [includes]. rewrite Hd. cbn [orb]. now apply IH.
Qed.

(** X2.  No backslash survives [removeDots]. *)
Theorem removeDots_leaves_no_backslash (value : string) :
  includes backslash (removeDots value) = false.
Proof.
  unfold removeDots. apply replaceFirstSlashDotSlash_keeps_clean; [reflexivity|].
  unfold stripPrefix. destruct (startsWith "./" (replaceBackslashes value)).
  - apply includes_drop. apply replaceBackslashes_clean.
  - apply replaceBackslashes_clean.
Qed.

Lemma replaceBackslashes_id (s : string) :
  includes backslash s = false -> replaceBackslashes s = s.
Proof.
  induction s as [|c r IH]; simpl; [reflexivity|]. intros H.
  apply orb_false_iff in H. destruct H as [Hc Hr]. rewrite Hc. now rewrite IH.
Qed.

Lemma replaceFirstSlashDotSlash_id (s : string) :
  hasDotSegment s = false -> replaceFirstSlashDotSlash s = s.
Proof.
  induction s as [|c r IH]; [reflexivity|]. intros H.
  unfold hasDotSegment in H. fold hasDotSegment in H.
  apply orb_false_iff in H. destruct H as [Hs Hr].
  unfold replaceFirstSlashDotSlash. fold replaceFirstSlashDotSlash.
  rewrite Hs. now rewrite IH.
Qed.

Lemma removeDots_clean (value : string) :
  includes backslash value = false ->
  startsWith "./" value = false ->
  hasDotSegment value = false ->
  removeDots value = value.
Proof.
  intros Hb Hp Hd. unfold removeDots, stripPrefix.
  rewrite (replaceBackslashes_id _ Hb), Hp. now apply replaceFirstSlashDotSlash_id.
Qed.

(** X3.  A path written with slashes only, without a leading [./] and without a
    [/./] inside, is its own normal form, and so is every normal form of
    such a path: on these paths [pathEqual] is plain equality of what
    [normalizePath] returns. *)
Theorem removeDots_fixes_clean_paths (value : string) :
  includes backslash value = false ->
  startsWith "./" value = false ->
  hasDotSegment value = false ->
  removeDots value = value
  /\ removeDots (removeDots value) = removeDots value.
Proof.
  intros Hb Hp Hd. rewrite !(removeDots_clean _ Hb Hp Hd). split; reflexivity.
Qed.

Lemma removeDots_fixes_clean_paths_witness :
  removeDots "notes/daily/2024.md" = "notes/daily/2024.md".
Proof.
  exact (proj1 (@removeDots_fixes_clean_paths "notes/daily/2024.md"
                  eq_refl eq_refl eq_refl)).
Defined.

Lemma endsWith_app (p s : string) : endsWith p (s ++ p) = true.
Proof.
  unfold endsWith. rewrite length_app_string.
  replace (String.length s + String.length p - String.length p)%nat
    with (String.length s) by lia.
  rewrite drop_app, String.eqb_refl.
  replace (String.length p <=? String.length s + String.length p)%nat with true;
    [reflexivity|].
  symmetry. apply Nat.leb_le. lia.
Qed.

(** X6.  The path handed to the file store always ends in [.md], and the second
    test for the extension changes nothing when [normalizePath] kept it. *)
Theorem report_path_has_extension (app : App) (preset : UsedLinks) :
  endsWith ".md" (withMd (outputPathOf app preset)) = true
  /\ endsWith ".md" (withMd (presetPath preset)) = true
  /\ withMd (withMd (presetPath preset)) = withMd (presetPath preset)
  /\ (endsWith ".md" (outputPathOf app preset) = true ->
      withMd (outputPathOf app preset) = outputPathOf app preset).
Proof.
  assert (H : forall p, endsWith ".md" (withMd p) = true).
  { intros p. unfold withMd. destruct (endsWith ".md" p) eqn:E; [exact E|].
    apply endsWith_app. }
  repeat split; try apply H.
  - unfold withMd at 1. now rewrite H.
  - intros E. unfold withMd. now rewrite E.
Qed.

Lemma lastIndexOf_None (c : ascii) (s : string) :
  lastIndexOf c s = None <-> includes c s = false.
Proof.
  induction s as [|d r IH]; simpl; [tauto|].
  destruct (lastIndexOf c r) as [i|].
  - split; [discriminate|]. intros H. apply orb_false_iff in H.
    destruct H as [_ H]. apply IH in H. discriminate.
  - destruct (Ascii.eqb d c); simpl; [split; discriminate|].
    split; intros _; [now apply IH|reflexivity].
Qed.

Lemma lastIndexOf_Some (c : ascii) (s : string) (i : nat) :
  lastIndexOf c s = Some i ->
  s = take i s ++ String c (drop (S i) s)
  /\ includes c (drop (S i) s) = false.
Proof.
  revert i. induction s as [|d r IH]; intros i; simpl; [discriminate|].
  destruct (lastIndexOf c r) as [j|] eqn:E.
  - intros H. inversion H; subst i. destruct (IH j eq_refl) as [H1 H2].
    split; [|exact H2].
    change (String d r = String d (take j r ++ String c (drop (S j) r))).
    f_equal. exact H1.
  - destruct (Ascii.eqb_spec d c) as [->|Hne]; [|discriminate].
    intros H. inversion H; subst i. simpl. split; [reflexivity|].
    now apply lastIndexOf_None.
Qed.

(** X7.  The folder computed for a new report: when it is not empty it is the
    path up to the last slash, the rest is a file name without slashes, and
    it is never the path itself, so the second half of the guard before
    [createFolder] never decides. *)
Theorem report_folder_is_proper_prefix (outputPath : string) :
  let dirPath :=
    take (match lastIndexOf slash outputPath with
          | Some i => i
          | None => 0%nat
          end) outputPath in
  dirPath <> EmptyString ->
  dirPath <> outputPath
  /\ exists file,
       outputPath = dirPath ++ String slash file
       /\ includes slash file = false.
Proof.
  intros dirPath Hne. unfold dirPath in *.
  destruct (lastIndexOf slash outputPath) as [i|] eqn:E.
  - destruct (lastIndexOf_Some _ _ E) as [H1 H2]. split.
    + intros Heq. apply (f_equal String.length) in H1.
      rewrite length_app_string, Heq in H1. simpl in H1. lia.
    + exists (drop (S i) outputPath). auto.
  - exfalso. apply Hne. now destruct outputPath.
Qed.

Lemma report_folder_is_proper_prefix_witness :
  exists file,
    "reports/used_links.md" = take 7 "reports/used_links.md" ++ String slash file
    /\ includes slash file = false.
Proof.
  refine (proj2 (@report_folder_is_proper_prefix "reports/used_links.md" _)).
  discriminate.
Defined.

(** ** Reference parser *)

Lemma includes_app (c : ascii) (a b : string) :
  includes c (a ++ b) = includes c a || includes c b.
Proof.
  induction a as [|d a IH]; simpl; [reflexivity|].
  now rewrite IH, orb_assoc.
Qed.

Lemma includes_before (c : ascii) (s : string) :
  includes c (before c s) = false.
Proof.
  induction s as [|d r IH]; simpl; [reflexivity|].
  destruct (Ascii.eqb d c) eqn:E; simpl; [reflexivity|]. now rewrite E.
Qed.

Lemma includes_trimStart (c : ascii) (s : string) :
  includes c s = false -> includes c (trimStart s) = false.
Proof.
  induction s as [|d r IH]; simpl; [reflexivity|]. intros H.
  destruct (isWhite d); [|exact H].
  apply orb_false_iff in H. now apply IH.
Qed.

Lemma includes_trimEnd (c : ascii) (s : string) :
  includes c s = false -> includes c (trimEnd s) = false.
Proof.
  induction s as [|d r IH]; simpl; [reflexivity|]. intros H.
  apply orb_false_iff in H. destruct H as [Hd Hr]. specialize (IH Hr).
  destruct (trimEnd r) as [|e r'].
  - destruct (isWhite d); simpl; [reflexivity|]. now rewrite Hd.
  - cbn [includes]. rewrite Hd. exact IH.
Qed.

Lemma extractAlias_has_no_separator (linkText t : string) :
  extractAlias linkText = Some t -> includes bar t = false.
Proof.
  destruct (includes bar (stripEmbedMarker (cleanWikiLink linkText))) eqn:E.
  - rewrite (extractAlias_bar _ E). intros H. inversion H.
    unfold trim. apply includes_trimEnd, includes_trimStart, includes_before.
  - rewrite (extractAlias_no_bar _ E). discriminate.
Qed.

Lemma includes_join (c : ascii) (sep : string) (xs : list string) :
  includes c sep = false ->
  (forall x, In x xs -> includes c x = false) ->
  includes c (join sep xs) = false.
Proof.
  intros Hsep. induction xs as [|x rest IH]; intros H; [reflexivity|].
  destruct rest as [|y rest'].
  - simpl. apply H. now left.
  - change (join sep (x :: y :: rest')) with (x ++ sep ++ join sep (y :: rest')).
    rewrite !includes_app, Hsep, (H x (or_introl eq_refl)). simpl.
    apply IH. intros z Hz. apply H. now right.
Qed.

(** X11.  No connected term holds the column separator, so the third cell of a
    row never breaks the table, whatever the links look like. *)
Theorem connected_terms_cell_has_no_separator (node : IndexNode) :
  (forall t, In t (connectedTerms node) -> includes bar t = false)
  /\ includes bar (join ", " (connectedTerms node)) = false.
Proof.
  assert (H : forall t, In t (connectedTerms node) -> includes bar t = false).
  { intros t Ht. apply connectedTerms_spec in Ht.
    destruct Ht as [l [_ [Ha _]]]. exact (extractAlias_has_no_separator _ Ha). }
  split; [exact H|]. now apply includes_join.
Qed.

Lemma wrapped_alias_parses_witness :
  extractDisplayName "[[ Human Connection | human connection |x]]"
  = "Human Connection"
  /\ extractAlias "[[ Human Connection | human connection |x]]"
     = Some "human connection".
Proof.
  exact (@wrapped_alias_parses " Human Connection " " human connection |x"
           eq_refl eq_refl).
Defined.

Lemma wrapped_plain_parses_witness :
  extractDisplayName "[[ Human Connection ]]" = " Human Connection "
  /\ extractAlias "[[ Human Connection ]]" = None.
Proof.
  exact (@wrapped_plain_parses " Human Connection " eq_refl eq_refl).
Defined.

(** X10.  The original text of an embed starts with the marker, so the opening
    brackets are not stripped: the display name of [![[t]]] is [[[t], while
    the alias, when there is one, is extracted as for a link. *)
Theorem embed_text_keeps_opening_brackets (t a : string) :
  includes bar t = false ->
  extractDisplayName ("![[" ++ t ++ "]]") = "[[" ++ t
  /\ extractAlias ("![[" ++ t ++ "]]") = None
  /\ extractDisplayName ("![[" ++ (t ++ String bar a) ++ "]]")
     = trim ("[[" ++ t)
  /\ extractAlias ("![[" ++ (t ++ String bar a) ++ "]]")
     = Some (trim (before bar a)).
Proof.
  intros Hbar.
  assert (Hclean : forall s,
             stripEmbedMarker (cleanWikiLink ("![[" ++ s ++ "]]")) = "[[" ++ s).
  { intros s. unfold cleanWikiLink.
    change (stripPrefix "[[" ("![[" ++ s ++ "]]")) with (("![[" ++ s) ++ "]]").
    rewrite stripSuffix_app. reflexivity. }
  assert (Hno : includes bar ("[[" ++ t) = false) by exact Hbar.
  repeat split.
  - unfold extractDisplayName. now rewrite Hclean, Hno.
  - unfold extractAlias. now rewrite Hclean, Hno.
  - rewrite extractDisplayName_bar; rewrite Hclean.
    + change ("[[" ++ t ++ String bar a) with (("[[" ++ t) ++ String bar a).
      now rewrite before_app_bar.
    + change ("[[" ++ t ++ String bar a) with (("[[" ++ t) ++ String bar a).
      apply includes_app_bar.
  - rewrite extractAlias_bar; rewrite Hclean.
    + change ("[[" ++ t ++ String bar a) with (("[[" ++ t) ++ String bar a).
      now rewrite after_app_bar.
    + change ("[[" ++ t ++ String bar a) with (("[[" ++ t) ++ String bar a).
      apply includes_app_bar.
Qed.

Lemma embed_text_keeps_opening_brackets_witness :
  extractDisplayName "![[Target]]" = "[[Target"
  /\ extractAlias "![[Target|shown]]" = Some "shown".
Proof.
  destruct (@embed_text_keeps_opening_brackets "Target" "shown" eq_refl)
    as [H1 [_ [_ H4]]].
  split; [exact H1|exact H4].
Defined.

(** ** Path filter *)

(** X12.  [some] over the filename patterns stops at the first pattern that
    matches or throws: the patterns after it are not even compiled, so a
    malformed pattern is only noticed when nothing before it matches. *)
Theorem someRegExp_stops_at_first_hit (app : App) (pre post : list string)
  (p s : string) :
  (forall q, In q pre -> regExpTest app q s = Normal false) ->
  someRegExp app (pre ++ p :: post) s
  = match regExpTest app p s with
    | Normal true => Normal true
    | Normal false => someRegExp app post s
    | Throw m => Throw m
    end.
Proof.
  induction pre as [|q pre IH]; intros H; simpl.
  - destruct (regExpTest app p s) as [[|]|m]; reflexivity.
  - rewrite (H q (or_introl eq_refl)). simpl. apply IH.
    intros q' Hq'. apply H. now right.
Qed.

Lemma someRegExp_stops_at_first_hit_witness :
  exists m,
    someRegExp (strictHost Demo.scenario) (["^Draft"] ++ "[" :: ["A"]) "A.md"
    = Throw m.
Proof.
  eexists.
  refine (eq_trans (@someRegExp_stops_at_first_hit (strictHost Demo.scenario)
                      ["^Draft"] ["A"] "[" "A.md" _) _).
  - intros q [<-|[]]. reflexivity.
  - reflexivity.
Defined.

Lemma fold_left_fixed {A B} (g : A -> B -> A) (l : list B) (u : A) :
  (forall x, In x l -> g u x = u) -> fold_left g l u = u.
Proof.
  induction l as [|x l IH]; intros H; simpl; [reflexivity|].
  rewrite (H x (or_introl eq_refl)). apply IH. intros y Hy. apply H. now right.
Qed.

(** X14.  The output note of any configured preset, not only of the one being
    run, is passed over as a source: a report never counts the links listed
    in another report. *)
Theorem report_notes_are_not_sources (app : App) (usedLinks : list UsedLinks)
  (preset : UsedLinks) (u : JsObject.t) (f : TFile) :
  (exists p, In p usedLinks /\ path f = outputPathOf app p) ->
  processFile app (setupCommands app usedLinks) preset
    (outputPathOf app preset) u f = u.
Proof.
  intros [p [Hp Hf]]. unfold processFile.
  destruct (String.eqb (path f) (outputPathOf app preset)); [reflexivity|].
  destruct (isExcluded app (setupCommands app usedLinks) f _ _) as [b|m] eqn:E;
    [|reflexivity].
  assert (Hin : In (path f) (setupCommands app usedLinks)).
  { rewrite Hf. unfold setupCommands. now apply in_map. }
  rewrite (isExcluded_global app _ f _ _ (listed_is_excluded app _ _ Hin) E).
  reflexivity.
Qed.

Lemma report_notes_are_not_sources_witness :
  let vault := [(Demo.note "missing.md", [Demo.wiki "B"; Demo.wiki "C"])] in
  let host := Demo.host vault in
  let all := Demo.defaults "all" "used_links" in
  let missing := Demo.nonexistentOnlyPreset "missing" "missing" in
  processFile host (setupCommands host [all; missing]) all
    (outputPathOf host all) JsObject.empty (Demo.note "missing.md")
  = JsObject.empty.
Proof.
  intros vault host all missing.
  refine (@report_notes_are_not_sources host [all; missing] all JsObject.empty
            (Demo.note "missing.md") _).
  exists missing. split; [right; left; reflexivity|reflexivity].
Defined.

(** X15.  A malformed first from-pattern is a silent failure: the filter throws
    for every note, every note is passed over, and the report is the bare
    header. *)
Theorem malformed_from_pattern_empties_report (app : App)
  (globalExcludes : list string) (preset : UsedLinks) (p : string)
  (rest : list string) :
  excludeFromFilenames preset = p :: rest ->
  (forall f, In f (getMarkdownFiles app) ->
             exists m, regExpTest app p (name f) = Throw m) ->
  collectLinks app globalExcludes preset = JsObject.empty
  /\ renderContent app preset (collectLinks app globalExcludes preset)
     = tableHeader.
Proof.
  intros Hp Hthrow.
  assert (E : collectLinks app globalExcludes preset = JsObject.empty).
  { unfold collectLinks. apply fold_left_fixed. intros f Hf.
    unfold processFile.
    destruct (String.eqb (path f) (outputPathOf app preset)); [reflexivity|].
    unfold isExcluded. rewrite Hp. simpl.
    destruct (Hthrow f Hf) as [m Hm]. rewrite Hm. reflexivity. }
  split; [exact E|]. rewrite E. unfold renderContent, renderRows, sortedLinks.
  destruct (sortAlphabetically preset);
    change (tableHeader ++ EmptyString = tableHeader);
    apply append_nil_r_string.
Qed.

Lemma malformed_from_pattern_empties_report_witness :
  let host := strictHost Demo.scenario in
  let broken :=
    mkPreset "all" "used_links" true true true false false [] [] ["["] [] in
  collectLinks host (setupCommands host [broken]) broken = JsObject.empty.
Proof.
  intros host broken.
  refine (proj1 (@malformed_from_pattern_empties_report host
                   (setupCommands host [broken]) broken "[" [] eq_refl _)).
  intros f _. eexists. reflexivity.
Defined.

(** ** Link aggregator *)

(** X16.  The [try] is around the whole note, not around one reference: when the
    callback throws at a reference, the entries written for the references
    before it stay, and the references after it and all the embeds of the
    note are never looked at. *)
Theorem throw_ends_the_note (app : App) (globalExcludes : list string)
  (preset : UsedLinks) (u u1 : JsObject.t) (f : TFile)
  (fileCache : CachedMetadata) (pre post : list (option ReferenceCache))
  (l : option ReferenceCache) (m : string) :
  path f <> outputPathOf app preset ->
  isExcluded app globalExcludes f
    (excludeFromFilenames preset) (excludeFromGlobs preset) = Normal false ->
  getFileCache app f = Some fileCache ->
  links fileCache = Some (pre ++ l :: post)%list ->
  grabLinks app globalExcludes preset u f pre = (u1, Normal tt) ->
  grabLink app globalExcludes preset f u1 l = Throw m ->
  grabLinks app globalExcludes preset u f (pre ++ l :: post) = (u1, Throw m)
  /\ processFile app globalExcludes preset (outputPathOf app preset) u f = u1.
Proof.
  intros Hout Hex Hcache Hlinks Hpre Hl.
  assert (E : grabLinks app globalExcludes preset u f (pre ++ l :: post)
              = (u1, Throw m)).
  { rewrite grabLinks_app, Hpre. simpl. now rewrite Hl. }
  split; [exact E|]. unfold processFile.
  apply String.eqb_neq in Hout. rewrite Hout, Hex, Hcache, Hlinks, E.
  reflexivity.
Qed.

Lemma throw_ends_the_note_witness :
  let vault :=
    [(Demo.note "A.md", [Demo.wiki "B"; Demo.wiki "__proto__"; Demo.wiki "C"])] in
  let host := Demo.host vault in
  let all := Demo.defaults "all" "used_links" in
  map fst (processFile host (setupCommands host [all]) all
             (outputPathOf host all) JsObject.empty (Demo.note "A.md"))
  = ["b"].
Proof.
  intros vault host all.
  refine (f_equal (map fst)
            (proj2 (@throw_ends_the_note host (setupCommands host [all]) all
                      JsObject.empty _ (Demo.note "A.md")
                      (mkCache (Some [Demo.wiki "B"; Demo.wiki "__proto__";
                                      Demo.wiki "C"]) None)
                      [Demo.wiki "B"] [Demo.wiki "C"] (Demo.wiki "__proto__")
                      typeErrorPush _ eq_refl eq_refl eq_refl eq_refl eq_refl))).
  discriminate.
Defined.

Lemma lowerChar_idempotent (c : ascii) : lowerChar (lowerChar c) = lowerChar c.
Proof. destruct c as [[] [] [] [] [] [] [] []]; reflexivity. Qed.

Lemma toLowerCase_idempotent (s : string) :
  toLowerCase (toLowerCase s) = toLowerCase s.
Proof.
  induction s as [|c s IH]; simpl; [reflexivity|].
  now rewrite lowerChar_idempotent, IH.
Qed.

Section Entries.

Variable app : App.
Variable globalExcludes : list string.
Variable preset : UsedLinks.

Lemma grabLink_ownKeysOnly (f : TFile) (u u' : JsObject.t)
  (l : option ReferenceCache) :
  ownKeysOnly u ->
  grabLink app globalExcludes preset f u l = Normal u' ->
  ownKeysOnly u'.
Proof.
  intros Hu. rewrite grabLink_filter.
  destruct (filterReference app globalExcludes preset f l) as [[a|]|m];
    [|intros H; inversion H; now subst|discriminate].
  destruct (get_cases u (identityKey app a)) as [[Hg _]|[Hg Hundef]].
  - rewrite Hg. discriminate.
  - intros H.
    assert (E : u' = upsert app preset u a).
    { destruct (JsObject.get u (identityKey app a)); congruence. }
    subst u'. intros k Hk. rewrite upsert_keys in Hk.
    apply setAdd_In in Hk. destruct Hk as [Hk | ->]; [now apply Hu|].
    destruct (JsObject.getOwn u (identityKey app a)) as [n|] eqn:Eo.
    + apply Hu. apply getOwn_In in Eo. apply in_map_iff.
      exists (identityKey app a, n). auto.
    + specialize (Hundef eq_refl). unfold JsObject.get in Hundef.
      rewrite Eo in Hundef.
      destruct (JsObject.isInherited (identityKey app a));
        [discriminate|reflexivity].
Qed.

Lemma grabLinks_ownKeysOnly (f : TFile) (ls : list (option ReferenceCache)) :
  forall u, ownKeysOnly u ->
            ownKeysOnly (fst (grabLinks app globalExcludes preset u f ls)).
Proof.
  induction ls as [|l ls IH]; intros u Hu; simpl; [exact Hu|].
  destruct (grabLink app globalExcludes preset f u l) as [u'|m] eqn:E.
  - apply IH. eapply grabLink_ownKeysOnly; eassumption.
  - exact Hu.
Qed.

Lemma processFile_ownKeysOnly (out : string) (u : JsObject.t) (f : TFile) :
  ownKeysOnly u ->
  ownKeysOnly (processFile app globalExcludes preset out u f).
Proof.
  intros Hu. unfold processFile.
  destruct (String.eqb (path f) out); [exact Hu|].
  destruct (isExcluded app globalExcludes f _ _) as [[|]|m]; try exact Hu.
  destruct (getFileCache app f) as [fc|]; [|exact Hu].
  assert (H1 : ownKeysOnly
                 (fst match links fc with
                      | Some ls => grabLinks app globalExcludes preset u f ls
                      | None => (u, Normal tt)
                      end)).
  { destruct (links fc); [now apply grabLinks_ownKeysOnly|exact Hu]. }
  destruct (match links fc with
            | Some ls => grabLinks app globalExcludes preset u f ls
            | None => (u, Normal tt)
            end) as [u1 [[]|m]]; simpl in H1; [|exact H1].
  destruct (includeEmbeds preset); [|exact H1].
  destruct (embeds fc); [now apply grabLinks_ownKeysOnly|exact H1].
Qed.

Lemma collectLinks_ownKeysOnly :
  ownKeysOnly (collectLinks app globalExcludes preset).
Proof.
  unfold collectLinks.
  assert (H : forall files u,
             ownKeysOnly u ->
             ownKeysOnly
               (fold_left (processFile app globalExcludes preset
                             (outputPathOf app preset)) files u)).
  { induction files as [|f files IH]; intros u Hu; simpl; [exact Hu|].
    apply IH. now apply processFile_ownKeysOnly. }
  apply H. intros k [].
Qed.

(** Every entry of a run is the one some occurrences of the stream, all
    of its identity, amount to. *)
Lemma entry_provenance (k : string) (n : IndexNode) :
  In (k, n) (collectLinks app globalExcludes preset) ->
  exists first rest,
    (forall a, In a (first :: rest) ->
       In a (occurrenceStream app globalExcludes preset)
       /\ identityKey app a = k)
    /\ n = mkNode (N.of_nat (S (List.length rest)))
                  (canonicalDisplay app preset first)
                  (map (originalText app) (first :: rest))
                  (extractDisplayName (originalText app first)).
Proof.
  intros Hkn.
  destruct (collectLinks_stream app globalExcludes preset)
    as [xs [Hincl [Hrep _]]].
  destruct (Represents_entries Hrep) as [_ [_ Hentry]].
  destruct (Hentry k n Hkn) as [He _].
  destruct (filter (hasKey app k) xs) as [|first rest] eqn:Ef;
    [discriminate|].
  exists first, rest. split.
  - intros a Ha. rewrite <- Ef in Ha. apply filter_In in Ha.
    destruct Ha as [Ha Hk]. split; [now apply Hincl|].
    now apply String.eqb_eq in Hk.
  - simpl in He. now inversion He.
Qed.

End Entries.

Lemma occurrenceStream_filtered (app : App) (globalExcludes : list string)
  (preset : UsedLinks) (a : Occurrence) :
  In a (occurrenceStream app globalExcludes preset) ->
  exists f l, filterReference app globalExcludes preset f l = Normal (Some a).
Proof.
  unfold occurrenceStream. intros H. apply in_flat_map in H.
  destruct H as [f [_ Hf]]. apply fileStream_In in Hf.
  destruct Hf as [_ [l Hl]]. eauto.
Qed.

(** X18.  The entries of a run are well formed: no key twice; the count of an
    entry is the number of original texts it stores and at least one; its
    key is in lower case and never the name of an inherited property; its
    Link cell, its display name and its first stored text all come from one
    admitted occurrence of that identity, the first that was folded in. *)
Theorem final_entries_are_well_formed (app : App)
  (globalExcludes : list string) (preset : UsedLinks) :
  NoDup (map fst (collectLinks app globalExcludes preset))
  /\ forall k n,
       In (k, n) (collectLinks app globalExcludes preset) ->
       count n = N.of_nat (List.length (originalLinks n))
       /\ (1 <= count n)%N
       /\ toLowerCase k = k
       /\ JsObject.isInherited k = false
       /\ exists first,
            In first (occurrenceStream app globalExcludes preset)
            /\ identityKey app first = k
            /\ nodeLink n = canonicalDisplay app preset first
            /\ displayName n = extractDisplayName (originalText app first)
            /\ hd_error (originalLinks n) = Some (originalText app first).
Proof.
  split.
  - destruct (collectLinks_stream app globalExcludes preset)
      as [xs [_ [Hrep _]]].
    now destruct (Represents_entries Hrep).
  - intros k n Hkn.
    destruct (entry_provenance _ _ _ _ _ Hkn) as [first [rest [Hocc Hn]]].
    destruct (Hocc first (or_introl eq_refl)) as [Hin Hkey].
    subst n. simpl. rewrite length_map. repeat split.
    + lia.
    + rewrite <- Hkey. unfold identityKey. apply toLowerCase_idempotent.
    + apply (collectLinks_ownKeysOnly app globalExcludes preset).
      apply in_map_iff. eexists. split; [|exact Hkn]. reflexivity.
    + exists first. repeat split; auto.
Qed.

Lemma collectLinks_one_entry_per_identity_witness :
  let host := Demo.host Demo.scenario in
  let all := Demo.defaults "all" "used_links" in
  NoDup (map fst (collectLinks host (setupCommands host [all]) all)).
Proof.
  intros host all.
  refine (proj1 (@collectLinks_one_entry_per_identity host
                   (setupCommands host [all]) all _)).
  intros a Ha. vm_compute in Ha.
  repeat (destruct Ha as [<-|Ha]; [reflexivity|]). destruct Ha.
Defined.

(** X20.  With [nonexistentOnly] every admitted occurrence is unresolved, so
    every row of the report is keyed by a raw link path in lower case and
    shows that link path, bracketed or not as the preset says. *)
Theorem nonexistent_only_lists_raw_link_paths (app : App)
  (globalExcludes : list string) (preset : UsedLinks) :
  nonexistentOnly preset = true ->
  (forall a, In a (occurrenceStream app globalExcludes preset) ->
             target a = None)
  /\ forall k n,
       In (k, n) (collectLinks app globalExcludes preset) ->
       exists first,
         In first (occurrenceStream app globalExcludes preset)
         /\ getFirstLinkpathDest app (linkpathOf app (reference first))
              (path (source first)) = None
         /\ k = toLowerCase (linkpathOf app (reference first))
         /\ nodeLink n
            = if linkToFiles preset
              then "[[" ++ linkpathOf app (reference first) ++ "]]"
              else linkpathOf app (reference first).
Proof.
  intros Hn.
  assert (Hnone : forall a, In a (occurrenceStream app globalExcludes preset) ->
                            target a = None
                            /\ getFirstLinkpathDest app
                                 (linkpathOf app (reference a))
                                 (path (source a)) = None).
  { intros a Ha. destruct (occurrenceStream_filtered _ _ _ _ Ha) as [f [l Hl]].
    apply filterReference_Some in Hl.
    destruct Hl as [Hs [_ [_ [Ht Hres]]]]. subst f.
    destruct (target a) as [t|] eqn:Et.
    - destruct (Hres t eq_refl) as [Hfalse _]. congruence.
    - split; [reflexivity|]. now rewrite <- Ht. }
  split; [intros a Ha; now apply Hnone|].
  intros k n Hkn.
  destruct (entry_provenance _ _ _ _ _ Hkn) as [first [rest [Hocc Hnode]]].
  destruct (Hocc first (or_introl eq_refl)) as [Hin Hkey].
  destruct (Hnone first Hin) as [Ht Hres].
  exists first. subst n. simpl. unfold canonicalDisplay.
  unfold identityKey in Hkey. rewrite Ht in *. auto.
Qed.

Lemma nonexistent_only_lists_raw_link_paths_witness :
  let host := Demo.host Demo.scenario in
  let only := Demo.nonexistentOnlyPreset "missing" "missing" in
  forallb (fun a => match target a with Some _ => false | None => true end)
          (occurrenceStream host (setupCommands host [only]) only)
  = true.
Proof.
  intros host only. apply forallb_forall. intros a Ha.
  now rewrite (proj1 (@nonexistent_only_lists_raw_link_paths host
                        (setupCommands host [only]) only eq_refl) a Ha).
Defined.



(** ** Report renderer and report generation *)

Lemma append_assoc_string (a b c : string) : (a ++ b) ++ c = a ++ b ++ c.
Proof. induction a as [|x a IH]; simpl; [reflexivity|now rewrite IH]. Qed.

Lemma take_drop_string (n : nat) :
  forall s, take n s ++ drop n s = s.
Proof.
  induction n as [|n IH]; intros s; [reflexivity|].
  destruct s as [|c s]; simpl; [reflexivity|]. now rewrite IH.
Qed.

Lemma endsWith_app_r (p a b : string) :
  endsWith p b = true -> endsWith p (a ++ b) = true.
Proof.
  unfold endsWith at 1. intros H. apply andb_prop in H. destruct H as [_ H].
  apply String.eqb_eq in H.
  rewrite <- (take_drop_string (String.length b - String.length p) b), H.
  rewrite <- append_assoc_string. apply endsWith_app.
Qed.

(** X22.  The report has the fixed header, then exactly one row per entry of the
    map in either sort mode, each row opening and closing the table cells;
    an empty map gives the bare header. *)
Theorem report_has_one_row_per_entry (app : App) (preset : UsedLinks)
  (u : JsObject.t) :
  List.length (renderRows app preset u) = List.length u
  /\ Permutation (renderRows app preset u) (map renderRow u)
  /\ startsWith tableHeader (renderContent app preset u) = true
  /\ (forall row, In row (renderRows app preset u) ->
        startsWith "| " row = true
        /\ endsWith (" |" ++ newline) row = true)
  /\ renderContent app preset JsObject.empty = tableHeader.
Proof.
  assert (Hperm : Permutation (sortedLinks app preset u) u).
  { unfold sortedLinks. eapply Permutation_trans; [|apply entries_perm].
    destruct (sortAlphabetically preset); apply sortBy_perm. }
  split; [|split; [|split; [|split]]].
  - unfold renderRows. rewrite length_map. now apply Permutation_length.
  - unfold renderRows. now apply Permutation_map.
  - unfold renderContent. apply startsWith_app.
  - intros row Hrow. unfold renderRows in Hrow. apply in_map_iff in Hrow.
    destruct Hrow as [e [<- _]]. unfold renderRow. split; [reflexivity|].
    do 6 apply endsWith_app_r.
    apply (endsWith_app (" |" ++ newline) EmptyString).
  - unfold renderContent, renderRows, sortedLinks.
    destruct (sortAlphabetically preset);
      change (tableHeader ++ EmptyString = tableHeader);
      apply append_nil_r_string.
Qed.

Ltac split_host_calls :=
  repeat match goal with
         | |- context [match ?x with _ => _ end] =>
             lazymatch x with
             | adapterExists _ _ _ => destruct x as [[|]|?]
             | adapterWrite _ _ _ _ => destruct x as [?|?]
             | vaultCreate _ _ _ _ => destruct x as [?|?]
             | vaultCreateFolder _ _ _ => destruct x as [?|?]
             | lastIndexOf _ _ => destruct x
             | (negb _ && negb _)%bool => destruct x
             end
         | |- context [if ?x then _ else _] =>
             lazymatch x with
             | (negb _ && negb _)%bool => destruct x
             end
         end.

(** X23.  A run with a preset never ends silently and never throws: its notices
    are the earlier ones followed either by the one success notice, or by
    the two error notices carrying the same message, with at most one
    notice (about the folder, or the success of a write whose final check
    failed) in front of them.  When the first existence check fails the
    file store is left as it was. *)
Theorem report_run_always_notifies (app : App) (globalExcludes : list string)
  (preset : UsedLinks) (w : World) :
  let found := collectLinks app globalExcludes preset in
  let outputPath := withMd (outputPathOf app preset) in
  let done := generateAllUsedLinksIndex app globalExcludes (Some preset) w in
  let success verb :=
    "Link Indexer (PNX): " ++ verb ++ " index at " ++ outputPath
    ++ " with " ++ uniqueCount found ++ " unique links" in
  (exists extra,
     notices done = (notices w ++ extra)%list
     /\ ((exists verb,
            (verb = "Updated" \/ verb = "Created new")
            /\ extra = [success verb])
         \/ exists m front,
              extra = (front ++ [("Error writing to file: " ++ m)%string;
                                 ("Error generating index: " ++ m)%string])%list
              /\ (List.length front <= 1)%nat))
  /\ (forall m, adapterExists app (store w) outputPath = Throw m ->
        store done = store w).
Proof.
  intros found outputPath done success. split.
  - unfold done, generateAllUsedLinksIndex, writeReport, createReport,
      finalCheck, notify.
    fold found. fold outputPath.
    split_host_calls; simpl; rewrite <- ?app_assoc; simpl;
      eexists; (split; [reflexivity|]);
      first
        [ left; exists "Updated"; split; [now left|reflexivity]
        | left; exists "Created new"; split; [now right|reflexivity]
        | right; eexists; exists []; split; [reflexivity|simpl; lia]
        | right; eexists; eexists [_]; split; [reflexivity|simpl; lia] ].
  - intros m Hm. unfold done, generateAllUsedLinksIndex, writeReport.
    fold outputPath. rewrite Hm. reflexivity.
Qed.

(** On a store that refuses every write the run ends with the two error
    notices and an untouched store. *)
Example read_only_store_reports_twice :
  let host := readOnlyHost Demo.scenario in
  let all := Demo.defaults "all" "used_links" in
  let w := mkWorld (mkStore [("A.md", "[[B]] [[C]]")] []) [] in
  generateAllUsedLinksIndex host (setupCommands host [all]) (Some all) w
  = mkWorld (mkStore [("A.md", "[[B]] [[C]]")] [])
      ["Error writing to file: EACCES: permission denied";
       "Error generating index: EACCES: permission denied"].
Proof. vm_compute. reflexivity. Qed.

(** ** Presets and settings *)

Local Open Scope list_scope.

(** X24.  [getPresetByName] returns the first preset of that name: a preset is
    found under its own name exactly when no earlier preset shares it, so
    with distinct names every preset is found, and with a shared name the
    command of the later preset runs the earlier one. *)
Theorem getPresetByName_finds_first (usedLinks : list UsedLinks) :
  (forall pre r post,
      usedLinks = pre ++ r :: post ->
      (forall q, In q pre -> presetName q <> presetName r) ->
      getPresetByName usedLinks (presetName r) = Some r)
  /\ (forall pre q r post,
        usedLinks = pre ++ r :: post ->
        In q pre -> presetName q = presetName r ->
        exists first,
          getPresetByName usedLinks (presetName r) = Some first
          /\ In first pre)
  /\ (NoDup (map presetName usedLinks) ->
      forall r, In r usedLinks ->
                getPresetByName usedLinks (presetName r) = Some r)
  /\ (forall name r,
        getPresetByName usedLinks name = Some r ->
        In r usedLinks /\ presetName r = name).
Proof.
  assert (Hfirst : forall pre r post,
             (forall q, In q pre -> presetName q <> presetName r) ->
             getPresetByName (pre ++ r :: post) (presetName r) = Some r).
  { intros pre r post. unfold getPresetByName.
    induction pre as [|q pre IH]; intros H; simpl.
    - now rewrite String.eqb_refl.
    - destruct (String.eqb_spec (presetName q) (presetName r)) as [E|_].
      + exfalso. exact (H q (or_introl eq_refl) E).
      + apply IH. intros q' Hq'. apply H. now right. }
  split; [|split; [|split]].
  - intros pre r post ->. apply Hfirst.
  - intros pre q r post -> Hq Hname. unfold getPresetByName.
    induction pre as [|p pre IH]; [destruct Hq|]. simpl.
    destruct (String.eqb_spec (presetName p) (presetName r)) as [E|E].
    + exists p. split; [reflexivity|now left].
    + destruct Hq as [->|Hq]; [contradiction|].
      destruct (IH Hq) as [first [H1 H2]]. exists first. split; [exact H1|now right].
  - intros Hnd r Hr. apply in_split in Hr. destruct Hr as [pre [post ->]].
    apply Hfirst. intros q Hq Heq. rewrite map_app in Hnd. simpl in Hnd.
    apply NoDup_remove_2 in Hnd. apply Hnd. apply in_or_app. left.
    rewrite <- Heq. now apply in_map.
  - intros name r H. unfold getPresetByName in H. apply find_some in H.
    destruct H as [H1 H2]. apply String.eqb_eq in H2. auto.
Qed.

Lemma deletePreset_lookup_other (usedLinks : list UsedLinks) (name other : string) :
  other <> name ->
  getPresetByName (Settings.deletePreset usedLinks name) other
  = getPresetByName usedLinks other.
Proof.
  intros Hne. unfold getPresetByName.
  induction usedLinks as [|r rest IH]; simpl; [reflexivity|].
  destruct (String.eqb_spec (presetName r) name) as [E|E]; simpl.
  - destruct (String.eqb_spec (presetName r) other) as [E'|_]; [|reflexivity].
    congruence.
  - now rewrite IH.
Qed.

(** X25.  Deleting a preset removes the first preset of that name and nothing
    else: a list without the name is unchanged, otherwise it gets one
    shorter; every other name is looked up as before; with distinct names
    the deleted name is no longer found. *)
Theorem deletePreset_removes_first (usedLinks : list UsedLinks) (name : string) :
  ((forall q, In q usedLinks -> presetName q <> name) ->
   Settings.deletePreset usedLinks name = usedLinks)
  /\ (forall pre r post,
        usedLinks = pre ++ r :: post ->
        presetName r = name ->
        (forall q, In q pre -> presetName q <> name) ->
        Settings.deletePreset usedLinks name = pre ++ post)
  /\ (forall other, other <> name ->
        getPresetByName (Settings.deletePreset usedLinks name) other
        = getPresetByName usedLinks other)
  /\ (NoDup (map presetName usedLinks) ->
      getPresetByName (Settings.deletePreset usedLinks name) name = None).
Proof.
  split; [|split; [|split]].
  - induction usedLinks as [|r rest IH]; intros H; simpl; [reflexivity|].
    destruct (String.eqb_spec (presetName r) name) as [E|_].
    + exfalso. exact (H r (or_introl eq_refl) E).
    + f_equal. apply IH. intros q Hq. apply H. now right.
  - intros pre r post -> Hr. induction pre as [|q pre IH]; intros H; simpl.
    + rewrite Hr, String.eqb_refl. reflexivity.
    + destruct (String.eqb_spec (presetName q) name) as [E|_].
      * exfalso. exact (H q (or_introl eq_refl) E).
      * f_equal. apply IH. intros q' Hq'. apply H. now right.
  - intros other. apply deletePreset_lookup_other.
  - induction usedLinks as [|r rest IH]; intros Hnd; simpl; [reflexivity|].
    simpl in Hnd. inversion Hnd as [|? ? Hnot Hnd']; subst.
    destruct (String.eqb_spec (presetName r) name) as [E|E].
    + apply getPresetByName_none. intros q Hq Heq. apply Hnot.
      rewrite E, <- Heq. now apply in_map.
    + unfold getPresetByName. simpl.
      destruct (String.eqb_spec (presetName r) name); [contradiction|].
      now apply IH.
Qed.

Lemma ofN_injective (a b : N) : ofN a = ofN b -> a = b.
Proof.
  unfold ofN. intros H.
  assert (Hnn : forall n, N.to_uint n <> Decimal.Nil).
  { intros [|p]; [discriminate|]. simpl. apply DecimalPos.Unsigned.to_uint_nonnil. }
  apply (f_equal NilZero.uint_of_string) in H.
  rewrite !NilZero.usu in H by apply Hnn.
  inversion H as [H']. now apply DecimalN.Unsigned.to_uint_inj.
Qed.

Lemma append_injective_l (p a b : string) :
  (p ++ a)%string = (p ++ b)%string -> a = b.
Proof.
  induction p as [|c p IH]; simpl; [auto|]. intros H. inversion H. auto.
Qed.

(** X26.  Presets created at different instants get different names and
    different output paths; a preset created now is found under its name
    unless an earlier preset already carries that name. *)
Theorem fresh_presets_are_distinct (a b : N) :
  a <> b ->
  presetName (Settings.newUsedLinks a) <> presetName (Settings.newUsedLinks b)
  /\ presetPath (Settings.newUsedLinks a) <> presetPath (Settings.newUsedLinks b)
  /\ forall usedLinks,
       (forall q, In q usedLinks -> presetName q <> ofN a) ->
       getPresetByName (Settings.addPreset usedLinks a) (ofN a)
       = Some (Settings.newUsedLinks a).
Proof.
  intros Hab. split; [|split].
  - simpl. intros H. apply Hab. now apply ofN_injective.
  - simpl. intros H. apply Hab. apply ofN_injective.
    exact (append_injective_l "used_links" _ _ H).
  - intros usedLinks H. unfold Settings.addPreset, getPresetByName.
    induction usedLinks as [|q rest IH]; simpl.
    + now rewrite String.eqb_refl.
    + destruct (String.eqb_spec (presetName q) (ofN a)) as [E|_].
      * exfalso. exact (H q (or_introl eq_refl) E).
      * apply IH. intros q' Hq'. apply H. now right.
Qed.

Lemma fresh_presets_are_distinct_witness :
  getPresetByName (Settings.addPreset [] 1747526400000) (ofN 1747526400000)
  = Some (Settings.newUsedLinks 1747526400000).
Proof.
  refine (proj2 (proj2 (@fresh_presets_are_distinct 1747526400000
                          1747526400001 _)) [] _).
  - discriminate.
  - intros q [].
Defined.

(** ** Pattern text areas *)

Lemma split_pieces_clean (c : ascii) (s x : string) :
  In x (split c s) -> includes c x = false.
Proof.
  revert x. induction s as [|d r IH]; intros x; simpl.
  - intros [<-|[]]. reflexivity.
  - destruct (Ascii.eqb d c) eqn:E.
    + intros [<-|H]; [reflexivity|now apply IH].
    + destruct (split c r) as [|h t] eqn:Es;
        [exfalso; exact (split_not_nil c r Es)|].
      intros [<-|H].
      * simpl. rewrite E. apply IH. now left.
      * apply IH. now right.
Qed.

Lemma split_clean (c : ascii) (s : string) :
  includes c s = false -> split c s = [s].
Proof.
  induction s as [|d r IH]; simpl; [reflexivity|]. intros H.
  apply orb_false_iff in H. destruct H as [Hd Hr].
  rewrite Hd, (IH Hr). reflexivity.
Qed.

Lemma split_app_sep (c : ascii) (x y : string) :
  includes c x = false ->
  split c (x ++ String c y)%string = x :: split c y.
Proof.
  induction x as [|d r IH]; simpl; intros H.
  - now rewrite Ascii.eqb_refl.
  - apply orb_false_iff in H. destruct H as [Hd Hr].
    rewrite Hd, (IH Hr). reflexivity.
Qed.

(** X27.  What the handler of a pattern text area stores never holds an empty
    pattern nor a pattern with a line break, whatever was typed. *)
Theorem parsePatterns_stores_clean_patterns (value p : string) :
  In p (Settings.parsePatterns value) ->
  p <> EmptyString /\ includes Settings.newlineChar p = false.
Proof.
  unfold Settings.parsePatterns. intros H. apply filter_In in H.
  destruct H as [Hin Hne]. split.
  - intros ->. discriminate.
  - exact (split_pieces_clean _ _ _ Hin).
Qed.

Lemma parsePatterns_stores_clean_patterns_witness :
  includes Settings.newlineChar "Dailies/**/*" = false.
Proof.
  refine (proj2 (@parsePatterns_stores_clean_patterns
                   (String.concat (String Settings.newlineChar EmptyString)
                      ["^Draft"; EmptyString; "Dailies/**/*"; EmptyString])
                   "Dailies/**/*" _)).
  vm_compute. right. left. reflexivity.
Defined.

(** X28.  Showing the stored patterns and reading the text area back gives the
    stored patterns again, as long as none is empty or holds a line
    break. *)
Theorem parsePatterns_round_trip (patterns : list string) :
  (forall p, In p patterns ->
             p <> EmptyString /\ includes Settings.newlineChar p = false) ->
  Settings.parsePatterns (Settings.showPatterns patterns) = patterns.
Proof.
  unfold Settings.parsePatterns, Settings.showPatterns.
  induction patterns as [|x rest IH]; intros H; [reflexivity|].
  destruct (H x (or_introl eq_refl)) as [Hne Hnl].
  apply String.eqb_neq in Hne.
  destruct rest as [|y rest'].
  - simpl. rewrite (split_clean _ _ Hnl). simpl. now rewrite Hne.
  - change (join (String Settings.newlineChar EmptyString) (x :: y :: rest'))
      with (x ++ String Settings.newlineChar
                   (join (String Settings.newlineChar EmptyString) (y :: rest')))%string.
    rewrite (split_app_sep _ _ _ Hnl). simpl filter. rewrite Hne. simpl negb.
    cbv iota. f_equal. apply IH. intros p Hp. apply H. now right.
Qed.

Lemma parsePatterns_round_trip_witness :
  Settings.parsePatterns (Settings.showPatterns ["^Draft"; "Dailies/**/*"])
  = ["^Draft"; "Dailies/**/*"].
Proof.
  refine (@parsePatterns_round_trip ["^Draft"; "Dailies/**/*"] _).
  intros p [<-|[<-|[]]]; split; (discriminate || reflexivity).
Defined.

(** ** The connected terms of the first revision *)

Lemma indexOf_None (x : string) (l : list string) :
  FirstRevision.indexOf x l = None <-> ~ In x l.
Proof.
  induction l as [|y l IH]; simpl; [tauto|].
  destruct (String.eqb_spec y x) as [->|Hne].
  - split; [discriminate|]. intros H. exfalso. apply H. now left.
  - destruct (FirstRevision.indexOf x l); simpl.
    + split; [discriminate|]. intros H. exfalso. apply H. right.
      apply Decidable.not_not; [|intros Hn; now apply IH in Hn].
      unfold Decidable.decidable. destruct (in_dec string_dec x l); auto.
    + split; [|reflexivity]. intros _ [H|H]; [contradiction|].
      now apply (proj1 IH).
Qed.

Lemma indexOf_bound (x : string) (l : list string) (i : nat) :
  FirstRevision.indexOf x l = Some i -> (i < List.length l)%nat.
Proof.
  revert i. induction l as [|y l IH]; intros i; simpl; [discriminate|].
  destruct (String.eqb y x).
  - intros H. inversion H. lia.
  - destruct (FirstRevision.indexOf x l) as [j|]; simpl; [|discriminate].
    intros H. inversion H. specialize (IH j eq_refl). lia.
Qed.

Lemma indexOf_app (x : string) (pre rest : list string) :
  FirstRevision.indexOf x (pre ++ rest)
  = match FirstRevision.indexOf x pre with
    | Some i => Some i
    | None => option_map (Nat.add (List.length pre))
                (FirstRevision.indexOf x rest)
    end.
Proof.
  induction pre as [|y pre IH]; simpl.
  - now destruct (FirstRevision.indexOf x rest).
  - destruct (String.eqb y x); [reflexivity|]. rewrite IH.
    destruct (FirstRevision.indexOf x pre); simpl; [reflexivity|].
    now destruct (FirstRevision.indexOf x rest).
Qed.

Lemma sameIndex_first (x : string) (pre rest : list string) :
  FirstRevision.sameIndex
    (FirstRevision.indexOf x (pre ++ x :: rest)) (List.length pre)
  = negb (existsb (String.eqb x) pre).
Proof.
  rewrite indexOf_app.
  destruct (FirstRevision.indexOf x pre) as [i|] eqn:E.
  - pose proof (indexOf_bound _ _ E) as Hi. simpl.
    replace (i =? List.length pre)%nat with false
      by (symmetry; apply Nat.eqb_neq; lia).
    assert (Hin : In x pre).
    { destruct (in_dec string_dec x pre) as [H|H]; [exact H|].
      apply indexOf_None in H. congruence. }
    replace (existsb (String.eqb x) pre) with true; [reflexivity|].
    symmetry. apply existsb_exists. exists x. split; [exact Hin|].
    apply String.eqb_refl.
  - simpl. rewrite String.eqb_refl. simpl.
    rewrite Nat.add_0_r, Nat.eqb_refl.
    apply indexOf_None in E.
    destruct (existsb (String.eqb x) pre) eqn:Ex; [|reflexivity].
    apply existsb_exists in Ex. destruct Ex as [y [Hy Hxy]].
    apply String.eqb_eq in Hxy. subst y. contradiction.
Qed.

Lemma keepFirst_setAdd (l : list string) :
  forall pre acc,
    (forall x, In x acc <-> In x pre) ->
    fold_left setAdd l acc
    = acc ++ FirstRevision.keepFirst (pre ++ l) (List.length pre) l.
Proof.
  induction l as [|x r IH]; intros pre acc Hacc; simpl.
  - now rewrite app_nil_r.
  - rewrite sameIndex_first.
    replace (pre ++ x :: r) with ((pre ++ [x]) ++ r)
      by (rewrite <- app_assoc; reflexivity).
    replace (S (List.length pre)) with (List.length (pre ++ [x]))
      by (rewrite length_app; simpl; lia).
    unfold setAdd at 2.
    assert (Hsame : existsb (String.eqb x) acc = existsb (String.eqb x) pre).
    { destruct (existsb (String.eqb x) pre) eqn:E.
      - apply existsb_exists in E. destruct E as [y [Hy Hxy]].
        apply existsb_exists. exists y. split; [now apply Hacc|exact Hxy].
      - destruct (existsb (String.eqb x) acc) eqn:E'; [|reflexivity].
        apply existsb_exists in E'. destruct E' as [y [Hy Hxy]].
        assert (true = false); [|discriminate]. rewrite <- E.
        symmetry. apply existsb_exists. exists y. split; [now apply Hacc|exact Hxy]. }
    rewrite Hsame. destruct (existsb (String.eqb x) pre) eqn:E; simpl.
    + apply IH. intros y. rewrite in_app_iff, <- Hacc. simpl.
      split; [auto|]. intros [H|[<-|[]]]; [exact H|].
      apply Hacc. apply existsb_exists in E. destruct E as [z [Hz Hxz]].
      apply String.eqb_eq in Hxz. now subst z.
    + rewrite (IH (pre ++ [x]) (acc ++ [x])).
      * rewrite <- app_assoc. reflexivity.
      * intros y. rewrite !in_app_iff, Hacc. tauto.
Qed.

(** X29.  The first revision lists every stored text once, in the order of the
    first occurrences: its filter by [indexOf] is the insertion into a set
    that the second revision uses. *)
Theorem first_revision_terms_are_distinct_texts (node : IndexNode) :
  FirstRevision.connectedTerms node
  = fold_left setAdd (originalLinks node) []
  /\ NoDup (FirstRevision.connectedTerms node)
  /\ forall t, In t (FirstRevision.connectedTerms node)
               <-> In t (originalLinks node).
Proof.
  assert (E : FirstRevision.connectedTerms node
              = fold_left setAdd (originalLinks node) []).
  { unfold FirstRevision.connectedTerms.
    rewrite (keepFirst_setAdd (originalLinks node) [] []); [reflexivity|].
    intros x. tauto. }
  rewrite E.
  destruct (distinct_fold (originalLinks node) (NoDup_nil string)) as [H1 H2].
  split; [reflexivity|]. split; [exact H1|].
  intros t. rewrite H2. simpl. tauto.
Qed.

(** ** What [removeDots] does collapse *)

Local Open Scope string_scope.

Lemma replaceBackslashes_idempotent (s : string) :
  replaceBackslashes (replaceBackslashes s) = replaceBackslashes s.
Proof. apply replaceBackslashes_id, replaceBackslashes_clean. Qed.

(** X4.  The kind of separator and one leading [./] make no difference to the
    normal form. *)
Theorem removeDots_ignores_separator_kind (value : string) :
  removeDots (replaceBackslashes value) = removeDots value
  /\ (startsWith "./" (replaceBackslashes value) = false ->
      removeDots ("./" ++ value) = removeDots value
      /\ removeDots (".\" ++ value) = removeDots value).
Proof.
  split.
  - unfold removeDots. now rewrite replaceBackslashes_idempotent.
  - intros H. unfold removeDots.
    change (replaceBackslashes ("./" ++ value))
      with ("./" ++ replaceBackslashes value).
    change (replaceBackslashes (".\" ++ value))
      with ("./" ++ replaceBackslashes value).
    rewrite (stripPrefix_app "./" (replaceBackslashes value)).
    unfold stripPrefix. rewrite H. split; reflexivity.
Qed.





(** ** The filter as a disjunction *)

Local Open Scope list_scope.

Lemma someRegExp_existsb (app : App) (matches : string -> bool)
  (patterns : list string) (s : string) :
  (forall p, In p patterns -> regExpTest app p s = Normal (matches p)) ->
  someRegExp app patterns s = Normal (existsb matches patterns).
Proof.
  induction patterns as [|p rest IH]; intros H; simpl; [reflexivity|].
  rewrite (H p (or_introl eq_refl)). simpl.
  destruct (matches p); [reflexivity|]. apply IH.
  intros q Hq. apply H. now right.
Qed.

(** X13.  When every filename pattern compiles and the glob matcher returns,
    [isExcluded] is the plain disjunction of its three rules, so the order
    of the patterns does not matter and a note on the global list is
    excluded whatever the patterns say. *)
Theorem isExcluded_is_disjunction (app : App) (globalExcludes : list string)
  (f : TFile) (filenamePatterns globPatterns : list string)
  (matches : string -> bool) (glob : bool) :
  (forall p, In p filenamePatterns ->
             regExpTest app p (name f) = Normal (matches p)) ->
  picomatchIsMatch app (path f) globPatterns = Normal glob ->
  isExcluded app globalExcludes f filenamePatterns globPatterns
  = Normal (existsb (fun g => pathEqual (normalizePath app) g (path f))
                    globalExcludes
            || existsb matches filenamePatterns
            || glob).
Proof.
  intros Hre Hglob. unfold isExcluded.
  rewrite (someRegExp_existsb app matches filenamePatterns (name f) Hre).
  simpl. rewrite Hglob. reflexivity.
Qed.

Lemma isExcluded_is_disjunction_witness :
  isExcluded (Demo.host Demo.scenario) ["used_links.md"]
    (Demo.note "used_links.md") ["^Draft"; "tmp$"] ["Dailies/**"]
  = Normal true.
Proof.
  refine (@isExcluded_is_disjunction (Demo.host Demo.scenario)
            ["used_links.md"] (Demo.note "used_links.md")
            ["^Draft"; "tmp$"] ["Dailies/**"] (fun _ => false) false _ eq_refl).
  intros p _. reflexivity.
Defined.

(** ** The counts add up *)

Section Totals.

Variable app : App.
Variable preset : UsedLinks.

Lemma totalCount_update (u : JsObject.t) (k : string) (n n' : IndexNode) :
  JsObject.getOwn u k = Some n ->
  (totalCount (JsObject.update u k n') + count n
   = totalCount u + count n')%N.
Proof.
  induction u as [|[k0 n0] u IH]; simpl; [discriminate|].
  destruct (String.eqb k0 k); simpl.
  - intros H. inversion H; subst. lia.
  - intros H. specialize (IH H). lia.
Qed.

Lemma totalCount_define (u : JsObject.t) (k : string) (n : IndexNode) :
  totalCount (JsObject.define u k n) = (totalCount u + count n)%N.
Proof.
  unfold JsObject.define. induction u as [|e u IH]; simpl; [lia|].
  rewrite IH. lia.
Qed.

Lemma totalCount_upsert (u : JsObject.t) (a : Occurrence) :
  totalCount (upsert app preset u a) = (totalCount u + 1)%N.
Proof.
  unfold upsert. destruct (JsObject.getOwn u (identityKey app a)) as [n|] eqn:E.
  - pose proof (totalCount_update u (identityKey app a)
                  (mkNode (count n + 1) (nodeLink n)
                          (originalLinks n ++ [originalText app a])
                          (displayName n)) E) as H.
    simpl in H. lia.
  - rewrite totalCount_define. reflexivity.
Qed.

Lemma totalCount_fold (xs : list Occurrence) :
  forall u,
    totalCount (fold_left (upsert app preset) xs u)
    = (totalCount u + N.of_nat (List.length xs))%N.
Proof.
  induction xs as [|a xs IH]; intros u; simpl fold_left.
  - simpl. lia.
  - rewrite IH, totalCount_upsert. simpl List.length. lia.
Qed.

End Totals.

(** X19.  Away from the inherited property names, the Count column adds up to
    the number of admitted occurrences: every admitted occurrence is counted
    once, in exactly one row. *)
Theorem counts_add_up (app : App) (globalExcludes : list string)
  (preset : UsedLinks) :
  noInheritedKey app (occurrenceStream app globalExcludes preset) ->
  totalCount (collectLinks app globalExcludes preset)
  = N.of_nat (List.length (occurrenceStream app globalExcludes preset)).
Proof.
  intros Hno. unfold collectLinks, occurrenceStream in *.
  destruct (fold_processFile_stream app globalExcludes preset
              (getMarkdownFiles app) JsObject.empty) as [xs [_ [H2 H3]]].
  rewrite H2, (H3 Hno), totalCount_fold. reflexivity.
Qed.

Lemma counts_add_up_witness :
  let host := Demo.host Demo.scenario in
  let all := Demo.defaults "all" "used_links" in
  totalCount (collectLinks host (setupCommands host [all]) all) = 5%N.
Proof.
  intros host all.
  refine (@counts_add_up host (setupCommands host [all]) all _).
  intros a Ha. vm_compute in Ha.
  repeat (destruct Ha as [<-|Ha]; [reflexivity|]). destruct Ha.
Defined.
